(** * Titan cyclotomic prime gaps: the sieve, the local solution count
      omega(p) of Q(n) = n^47 - (n-1)^47, the Euler product C_Q and the
      local-obstruction checks.

    Shallow embedding of [scripts/compute_bateman_horn.py] and
    [scripts/verify_local_obstruction.py].  Python integers are [Z], Python
    lists are Rocq lists indexed through stdpp's lookup and insert, a Python
    set is a [gset], Python floats are the kernel's binary64 floats, and a
    Python exception is the [Raise] branch of an error monad.  Console
    output is not modelled. *)

From Stdlib Require Import ZArith Zdivisibility Lia List Sorted Floats Uint63.
From stdpp Require Import base list list_numbers gmap.

Open Scope Z_scope.

(** ** The Python runtime fragment the scripts use *)

Module Py.

Inductive exn := IndexError | ZeroDivisionError.

Inductive result (A : Type) :=
| Ok (a : A)
| Raise (e : exn).
Arguments Ok {A} a.
Arguments Raise {A} e.

#[global] Instance result_ret : MRet result := @Ok.
#[global] Instance result_bind : MBind result := λ A B f m,
  match m with Ok a => f a | Raise e => Raise e end.

(** List subscripts: a negative index counts from the end, anything
    outside the list raises [IndexError]. *)
Definition index_of (len i : Z) : result nat :=
  let k := if i <? 0 then i + len else i in
  if (0 <=? k) && (k <? len) then Ok (Z.to_nat k) else Raise IndexError.

(** [l[i]] *)
Definition getitem {A} (l : list A) (i : Z) : result A :=
  k ← index_of (Z.of_nat (length l)) i;
  match l !! k with Some x => Ok x | None => Raise IndexError end.

(** [l[i] = v] *)
Definition setitem {A} (l : list A) (i : Z) (v : A) : result (list A) :=
  k ← index_of (Z.of_nat (length l)) i; Ok (<[k:=v]> l).

(** [range(start, stop)] *)
Definition range (start stop : Z) : list Z := seqZ start (stop - start).

(** [range(start, stop, step)], for the positive steps the scripts use. *)
Definition range_step (start stop step : Z) : list Z :=
  (λ t, start + t * step) <$> seqZ 0 ((stop - start + step - 1) `div` step).

(** [for x in xs: s = body(x, s)], stopping at the first exception. *)
Fixpoint for_each {S} (xs : list Z) (body : Z → S → result S) (s : S)
  : result S :=
  match xs with
  | [] => Ok s
  | x :: xs => s' ← body x s; for_each xs body s'
  end.

(** [for x in xs: if fails(x): return False] followed by [return True]. *)
Fixpoint scan (xs : list Z) (fails : Z → bool) : bool :=
  match xs with
  | [] => true
  | x :: xs => if fails x then false else scan xs fails
  end.

(** [pow(b, e, m)], the built-in three-argument power. *)
Definition pow3 (b e m : Z) : Z := (b ^ e) `mod` m.

(** [float(z)]: the integer rounded to the nearest binary64 value. *)
Definition float_of_Z (z : Z) : float :=
  SF2Prim (binary_normalize prec emax z 0 false).

(** [a / b] on two integers (true division).  The quotient of the two
    converted operands is the correctly rounded quotient as long as both
    are below 2^53 in magnitude, which every operand of the scripts is. *)
Definition int_truediv (a b : Z) : result float :=
  if b =? 0 then Raise ZeroDivisionError
  else Ok (PrimFloat.div (float_of_Z a) (float_of_Z b)).

(** [x / y] on two floats. *)
Definition float_truediv (x y : float) : result float :=
  if PrimFloat.eqb y 0%float then Raise ZeroDivisionError
  else Ok (PrimFloat.div x y).

End Py.
Import Py.

(** ** [sieve_primes], the same text in both scripts

    [int(n**0.5)] is taken as the integer square root [Z.sqrt n]: the float
    power is exact on every [n] that the list [is_prime] can be allocated
    for (n < 2^52). *)

Fixpoint select_marked (xs : list Z) (is_prime : list bool)
  : result (list Z) :=
  match xs with
  | [] => Ok []
  | i :: xs =>
      b ← getitem is_prime i;
      rest ← select_marked xs is_prime;
      Ok (if b : bool then i :: rest else rest)
  end.

Definition strike_multiples (n i : Z) (is_prime : list bool)
  : result (list bool) :=
  for_each (range_step (i * i) (n + 1) i)
           (λ j is_prime, setitem is_prime j false) is_prime.

Definition sieve_step (n i : Z) (is_prime : list bool) : result (list bool) :=
  b ← getitem is_prime i;
  if b : bool then strike_multiples n i is_prime else Ok is_prime.

Definition sieve_primes (n : Z) : result (list Z) :=
  let is_prime := replicate (Z.to_nat (n + 1)) true in
  is_prime ← setitem is_prime 0 false;
  is_prime ← setitem is_prime 1 false;
  is_prime ← for_each (range 2 (Z.sqrt n + 1)) (sieve_step n) is_prime;
  select_marked (range 2 (n + 1)) is_prime.

(** ** compute_bateman_horn.py *)

Definition omega_Q (p : Z) : Z :=
  if p =? 47 then 0
  else if (p - 1) `mod` 47 =? 0 then 46
  else 0.

(** [(1 - w / p) / (1 - 1 / p)] *)
Definition euler_factor (w p : Z) : result float :=
  a ← int_truediv w p;
  b ← int_truediv 1 p;
  float_truediv (PrimFloat.sub 1 a) (PrimFloat.sub 1 b).

(** The loop state of [compute_CQ]: [C_Q], [n_shield], [n_split]. *)
Definition CQ_state : Type := float * Z * Z.

Definition CQ_step (p : Z) (st : CQ_state) : result CQ_state :=
  let '(C_Q, n_shield, n_split) := st in
  let w := omega_Q p in
  factor ← euler_factor w p;
  let C_Q := PrimFloat.mul C_Q factor in
  Ok (if w =? 0 then (C_Q, n_shield + 1, n_split)
      else (C_Q, n_shield, n_split + 1)).

Definition compute_CQ (p_max : Z) : result float :=
  primes ← sieve_primes p_max;
  st ← for_each primes CQ_step (1%float, 0, 0);
  Ok st.1.1.

(** The loop state of [compute_sieve_weight]: [W_Q], [W_generic]. *)
Definition weight_step (p : Z) (st : float * float) : result (float * float) :=
  let '(W_Q, W_generic) := st in
  let w := omega_Q p in
  a ← int_truediv w p;
  let W_Q := PrimFloat.mul W_Q (PrimFloat.sub 1 a) in
  b ← int_truediv (Z.min 46 (p - 1)) p;
  let W_generic := PrimFloat.mul W_generic (PrimFloat.sub 1 b) in
  Ok (W_Q, W_generic).

Definition sieve_weights (z : Z) : result (float * float) :=
  primes ← sieve_primes z;
  for_each primes weight_step (1%float, 1%float).

Definition compute_sieve_weight (z : Z) : result float :=
  st ← sieve_weights z; Ok st.1.

(** ** verify_local_obstruction.py *)

(** [(pow(n, 47, p) - pow((n - 1) % p, 47, p)) % p] *)
Definition q_mod (n p : Z) : Z :=
  (pow3 n 47 p - pow3 ((n - 1) `mod` p) 47 p) `mod` p.

Definition omega_brute_force (p : Z) : Z :=
  fold_left (λ count n, if q_mod n p =? 0 then count + 1 else count)
            (range 0 p) 0.

Definition omega_theory (p : Z) : Z :=
  if p =? 47 then 0
  else if (p - 1) `mod` 47 =? 0 then 46
  else 0.

Definition verify_omega (p_max : Z) : result bool :=
  primes ← sieve_primes p_max;
  Ok (fold_left
        (λ (all_ok : bool) p,
           if negb (omega_brute_force p =? omega_theory p) then false
           else all_ok)
        primes true).

Definition verify_mod47 (n_max : Z) : bool :=
  scan (range 0 (n_max + 1)) (λ n, negb (q_mod n 47 =? 1)).

Definition verify_no_small_divisors (n_max : Z) : result bool :=
  small_primes ← sieve_primes 282;
  Ok (scan (range 2 (n_max + 1))
           (λ n, negb (scan small_primes (λ p, q_mod n p =? 0)))).

Fixpoint first_bad_prime_is_283 (primes : list Z) : bool :=
  match primes with
  | [] => false
  | p :: primes =>
      if (p - 1) `mod` 47 =? 0 then (if p =? 283 then true else false)
      else first_bad_prime_is_283 primes
  end.

Definition verify_smallest_bad_prime : result bool :=
  primes ← sieve_primes 300;
  Ok (first_bad_prime_is_283 primes).

(** ** Evaluation on machine integers

    The bounded checks range over a few million residues.  They are
    evaluated on 63-bit machine integers by the functions of [Fast], which
    the proofs below relate to the functions above. *)

Module Fast.

(** [b ^ e mod m] by square and multiply, for [b < m < 2^31]. *)
Fixpoint pow_mod (b : int) (e : positive) (m : int) : int :=
  match e with
  | xH => b
  | xO e => let r := pow_mod b e m in Uint63.mod (Uint63.mul r r) m
  | xI e =>
      let r := pow_mod b e m in
      Uint63.mod (Uint63.mul (Uint63.mod (Uint63.mul r r) m) b) m
  end.

Definition q_mod (n p : int) : int :=
  let a := Uint63.mod n p in
  let b := Uint63.mod (Uint63.sub (Uint63.add a p) 1) p in
  Uint63.mod
    (Uint63.sub (Uint63.add (pow_mod a 47 p) p) (pow_mod b 47 p)) p.

(** A left fold over [n, n + 1, ..., n + fuel - 1]. *)
Fixpoint fold_from {St} (fuel : nat) (n : int) (f : St → int → St) (s : St)
  : St :=
  match fuel with
  | O => s
  | S fuel => fold_from fuel (Uint63.add n 1) f (f s n)
  end.

(** [scan] over [n, n + 1, ..., n + fuel - 1]. *)
Fixpoint scan_from (fuel : nat) (n : int) (fails : int → bool) : bool :=
  match fuel with
  | O => true
  | S fuel => if fails n then false else scan_from fuel (Uint63.add n 1) fails
  end.

Definition omega_brute_force (p : Z) : Z :=
  let p' := Uint63.of_Z p in
  fold_from (Z.to_nat p) 0%uint63
    (λ count n, if Uint63.is_zero (q_mod n p') then count + 1 else count) 0.

Definition verify_mod47 (n_max : Z) : bool :=
  scan_from (Z.to_nat (n_max + 1)) 0%uint63
    (λ n, negb (Uint63.eqb (q_mod n 47%uint63) 1%uint63)).

Definition no_small_divisors (small_primes : list Z) (n_max : Z) : bool :=
  let ps := Uint63.of_Z <$> small_primes in
  scan_from (Z.to_nat (n_max + 1 - 2)) 2%uint63
    (λ n, existsb (λ p, Uint63.is_zero (q_mod n p)) ps).

End Fast.

(** The two prime tables the checks of [verify_local_obstruction.py] run
    over, evaluated once. *)
Definition from_ok (r : result (list Z)) : list Z :=
  match r with Ok l => l | Raise _ => [] end.

Definition primes_6299 :=
  Eval vm_compute in from_ok (sieve_primes 6299).

Definition primes_300 :=
  Eval vm_compute in from_ok (sieve_primes 300).

Definition primes_282 :=
  Eval vm_compute in from_ok (sieve_primes 282).

(** ** Predicates of the sieve proof *)

(** [m] passes the trial-division primality check: it is at least 2 and no
    [i >= 2] with [i * i <= m] divides it. *)
Definition trial_prime (m : Z) : Prop :=
  2 ≤ m ∧ ∀ i, 2 ≤ i → i * i ≤ m → ¬ (i | m).

(** [m] has been struck by an outer iteration [i < k]. *)
Definition struck_by (k m : Z) : Prop :=
  ∃ i, 2 ≤ i < k ∧ i * i ≤ m ∧ (i | m).

(** The state of [is_prime] when the outer loop reaches [i = k]. *)
Definition sieve_inv (n k : Z) (l : list bool) : Prop :=
  length l = Z.to_nat (n + 1) ∧
  ∀ m, 0 ≤ m ≤ n → l !! Z.to_nat m = Some false ↔ m < 2 ∨ struck_by k m.

(** ** The loop of [compute_CQ] without its counters *)
Fixpoint left_fold_product (acc : float) (primes : list Z) : result float :=
  match primes with
  | [] => Ok acc
  | p :: primes =>
      factor ← euler_factor (omega_Q p) p;
      left_fold_product (PrimFloat.mul acc factor) primes
  end.

(** ** The Euler product as the specification words it

    The local factor [(1 - omega_Q(p)/p) / (1 - 1/p)], written with the
    binary64 operations directly: every quotient and difference is the
    correctly rounded one, and nothing is checked or raised. *)
Definition local_factor (p : Z) : float :=
  PrimFloat.div
    (PrimFloat.sub 1 (PrimFloat.div (float_of_Z (omega_Q p)) (float_of_Z p)))
    (PrimFloat.sub 1 (PrimFloat.div (float_of_Z 1) (float_of_Z p))).

(** The left fold, over a list of primes, of multiplication by the local
    factor, starting from 1.0. *)
Definition euler_product (primes : list Z) : float :=
  fold_left (λ acc p, PrimFloat.mul acc (local_factor p)) primes 1%float.

(** ** Binary64 rounding

    The number of low bits that rounding to binary64 drops from a mantissa
    [m] held at exponent [e]. *)
Definition shift_of (m e : Z) : Z :=
  Z.max 0 (fexp prec emax (Zdigits2 m + e) - e).

(** ** Checking a table of primes by trial division *)

(** The executable form of [trial_prime]. *)
Definition trial_primeb (m : Z) : bool :=
  (2 <=? m) && forallb (λ i, negb (m `mod` i =? 0)) (seqZ 2 (Z.sqrt m - 1)).

(** [l] lists, in ascending order, exactly the numbers of
    [m, m + 1, ..., m + fuel - 1] that pass trial division. *)
Fixpoint table_ok (fuel : nat) (m : Z) (l : list Z) : bool :=
  match fuel with
  | O => match l with [] => true | _ :: _ => false end
  | S fuel =>
      match l with
      | p :: l' =>
          if p =? m then trial_primeb m && table_ok fuel (m + 1) l'
          else negb (trial_primeb m) && table_ok fuel (m + 1) l
      | [] => negb (trial_primeb m) && table_ok fuel (m + 1) []
      end
  end.

(** ** Further code of the two scripts *)

(** The polynomial of the two scripts, [Q(n) = n^47 - (n-1)^47]. *)
Definition Q (n : Z) : Z := n ^ 47 - (n - 1) ^ 47.

(** ** [count_bad_moduli]

    The [while] loop gets a fuel; running out of it is [None]. *)

(** [while temp % p == 0: if p not in bad_primes_set: all_bad = False; break
    else temp //= p], returning [temp] and [all_bad]. *)
Fixpoint strip_factor (fuel : nat) (bad_primes_set : gset Z) (p temp : Z)
  : option (Z * bool) :=
  match fuel with
  | O => None
  | S fuel =>
      if temp `mod` p =? 0 then
        if decide (p ∉ bad_primes_set) then Some (temp, false)
        else strip_factor fuel bad_primes_set p (temp `div` p)
      else Some (temp, true)
  end.

(** [for p in primes: if p * p > temp: break; <while loop>;
    if not all_bad: break], returning [temp] and [all_bad]. *)
Fixpoint trial_factor (bad_primes_set : gset Z) (primes : list Z) (temp : Z)
  : option (Z * bool) :=
  match primes with
  | [] => Some (temp, true)
  | p :: primes =>
      if p * p >? temp then Some (temp, true)
      else
        match strip_factor (S (Z.to_nat temp)) bad_primes_set p temp with
        | None => None
        | Some (temp, all_bad) =>
            if all_bad then trial_factor bad_primes_set primes temp
            else Some (temp, false)
        end
  end.

(** The body of the loop over [q]: the final value of [all_bad]. *)
Definition all_factors_bad (bad_primes_set : gset Z) (primes : list Z) (q : Z)
  : option bool :=
  match trial_factor bad_primes_set primes q with
  | None => None
  | Some (temp, all_bad) =>
      Some (if (temp >? 1) && bool_decide (temp ∉ bad_primes_set) then false
            else all_bad)
  end.

Fixpoint count_bad (bad_primes_set : gset Z) (primes : list Z) (qs : list Z)
    (bad_count : Z) : option Z :=
  match qs with
  | [] => Some bad_count
  | q :: qs =>
      match all_factors_bad bad_primes_set primes q with
      | None => None
      | Some all_bad =>
          count_bad bad_primes_set primes qs
            (if all_bad then bad_count + 1 else bad_count)
      end
  end.

(** [count_bad_moduli] up to the value of [bad_count] that it reports. *)
Definition count_bad_moduli (q_max : Z) : result (option Z) :=
  primes ← sieve_primes q_max;
  let bad_primes_set : gset Z :=
    list_to_set (filter (λ p, (p - 1) `mod` 47 = 0) primes) in
  Ok (count_bad bad_primes_set primes (range 2 (q_max + 1)) 0).

(** [q] is a bad modulus: each of its prime factors is 1 modulo 47. *)
Definition bad_modulus (q : Z) : Prop :=
  ∀ r, Z.prime r → (r | q) → r `mod` 47 = 1.

(** [main] of [verify_local_obstruction.py], up to the value of [all_ok]:
    the five checks run in this order, the result of the last one is
    dropped, and [all_ok = ok1 and ok2 and ok3 and ok4]. *)
Definition run_checks (check1 : result bool) (check2 : bool)
    (check3 check4 : result bool) (check5 : result (option Z))
  : result (option bool) :=
  ok1 ← check1;
  let ok2 := check2 in
  ok3 ← check3;
  ok4 ← check4;
  bad_count ← check5;
  Ok (match bad_count with
      | None => None
      | Some _ => Some (ok1 && ok2 && ok3 && ok4)
      end).

Definition verify_local_obstruction_main : result (option bool) :=
  run_checks (verify_omega 6299) (verify_mod47 100000)
             (verify_no_small_divisors 10000) verify_smallest_bad_prime
             (count_bad_moduli 50000).

(** The row labels of the two scripts: [ptype] as [compute_CQ] computes it
    from [w] and [p], and as [verify_omega] computes it from [p]. *)
Inductive ptype := SPLIT | ramif | shield.

Definition ptype_compute_CQ (p : Z) : ptype :=
  let w := omega_Q p in
  if w =? 46 then SPLIT else if p =? 47 then ramif else shield.

Definition ptype_verify_omega (p : Z) : ptype :=
  if ((p - 1) `mod` 47 =? 0) && negb (p =? 47) then SPLIT
  else if p =? 47 then ramif else shield.

(** The two factors of [compute_sieve_weight], outside the error monad. *)
Definition W_Q_factor (p : Z) : float :=
  PrimFloat.sub 1 (PrimFloat.div (float_of_Z (omega_Q p)) (float_of_Z p)).

Definition W_generic_factor (p : Z) : float :=
  PrimFloat.sub 1
    (PrimFloat.div (float_of_Z (Z.min 46 (p - 1))) (float_of_Z p)).

(** * Proofs *)

(** ** The runtime fragment *)

Section runtime.
Context {St : Type}.

Lemma index_of_ok (len i : Z) :
  0 ≤ i < len → index_of len i = Ok (Z.to_nat i).
Proof.
  intros Hi. unfold index_of.
  destruct (Z.ltb_spec i 0); [lia|].
  destruct (Z.leb_spec 0 i); [|lia].
  destruct (Z.ltb_spec i len); [done|lia].
Qed.

Lemma index_of_raise (len i : Z) :
  0 ≤ i → len ≤ i → index_of len i = Raise IndexError.
Proof.
  intros H0 Hi. unfold index_of.
  destruct (Z.ltb_spec i 0); [lia|].
  destruct (Z.ltb_spec i len); [lia|].
  by rewrite andb_false_r.
Qed.

Lemma getitem_ok {A} (l : list A) (i : Z) (x : A) :
  0 ≤ i → l !! Z.to_nat i = Some x → getitem l i = Ok x.
Proof.
  intros H0 Hx. unfold getitem.
  rewrite index_of_ok; [simpl; by rewrite Hx|].
  apply lookup_lt_Some in Hx. lia.
Qed.

Lemma setitem_ok {A} (l : list A) (i : Z) (v : A) :
  0 ≤ i < Z.of_nat (length l) → setitem l i v = Ok (<[Z.to_nat i:=v]> l).
Proof. intros Hi. unfold setitem. by rewrite index_of_ok. Qed.

Lemma setitem_raise {A} (l : list A) (i : Z) (v : A) :
  0 ≤ i → Z.of_nat (length l) ≤ i → setitem l i v = Raise IndexError.
Proof. intros H0 Hi. unfold setitem. by rewrite index_of_raise. Qed.

Lemma for_each_fmap (f : Z → Z) xs (body : Z → St → result St) s :
  for_each (f <$> xs) body s = for_each xs (λ x, body (f x)) s.
Proof.
  revert s. induction xs as [|x xs IH]; intros s; [done|].
  simpl. destruct (body (f x) s); simpl; [apply IH|done].
Qed.

(** A loop over consecutive integers keeps an invariant indexed by the
    loop variable, and does not raise, when each iteration does so. *)
Lemma for_each_seqZ (I : Z → St → Prop) (body : Z → St → result St) a len s :
  I a s →
  (∀ k s, a ≤ k < a + len → I k s → ∃ s', body k s = Ok s' ∧ I (k + 1) s') →
  ∃ s', for_each (seqZ a len) body s = Ok s' ∧ I (a + Z.max 0 len) s'.
Proof.
  destruct (Z.le_gt_cases len 0) as [Hle|Hpos].
  { intros HI _. rewrite seqZ_nil by done. exists s. split; [done|].
    by replace (a + Z.max 0 len) with a by lia. }
  rewrite Z.max_r by lia.
  assert (∃ n, len = Z.of_nat n) as [n ->] by (exists (Z.to_nat len); lia).
  clear Hpos. revert a s. induction n as [|n IH]; intros a s HI Hstep.
  { exists s. split; [done|]. by replace (a + Z.of_nat 0) with a by lia. }
  rewrite seqZ_cons by lia. simpl.
  destruct (Hstep a s ltac:(lia) HI) as (s1 & -> & HI1). simpl.
  replace (Z.pred (Z.of_nat (S n))) with (Z.of_nat n) by lia.
  destruct (IH (Z.succ a) s1) as (s2 & Hs2 & HI2).
  - by replace (Z.succ a) with (a + 1) by lia.
  - intros k s' Hk. apply Hstep. lia.
  - exists s2. split; [done|].
    by replace (a + Z.of_nat (S n)) with (Z.succ a + Z.of_nat n) by lia.
Qed.

Lemma for_each_ext xs (f g : Z → St → result St) s :
  (∀ x s, x ∈ xs → f x s = g x s) → for_each xs f s = for_each xs g s.
Proof.
  revert s. induction xs as [|x xs IH]; intros s Hfg; [done|].
  simpl. rewrite Hfg by apply list_elem_of_here.
  destruct (g x s); simpl; [|done].
  apply IH. intros y s' Hy. apply Hfg. by apply list_elem_of_further.
Qed.

Lemma scan_true xs (fails : Z → bool) :
  scan xs fails = true ↔ ∀ x, x ∈ xs → fails x = false.
Proof.
  induction xs as [|x xs IH]; simpl.
  - split; [|done]. intros _ x Hx. by apply elem_of_nil in Hx.
  - destruct (fails x) eqn:Hx.
    + split; [done|]. intros H. specialize (H x (list_elem_of_here _ _)).
      congruence.
    + rewrite IH. split.
      * intros H y Hy. apply elem_of_cons in Hy as [->|Hy]; auto.
      * intros H y Hy. apply H. by apply list_elem_of_further.
Qed.

Lemma scan_ext xs (f g : Z → bool) :
  (∀ x, x ∈ xs → f x = g x) → scan xs f = scan xs g.
Proof.
  induction xs as [|x xs IH]; intros Hfg; [done|].
  simpl. rewrite Hfg by apply list_elem_of_here.
  destruct (g x); [done|].
  apply IH. intros y Hy. apply Hfg. by apply list_elem_of_further.
Qed.

Lemma elem_of_range a b x : x ∈ range a b ↔ a ≤ x < b.
Proof. unfold range. rewrite elem_of_seqZ. lia. Qed.

End runtime.

Lemma StronglySorted_seqZ a len : StronglySorted Z.lt (seqZ a len).
Proof.
  destruct (Z.le_gt_cases len 0) as [Hle|Hpos].
  { rewrite seqZ_nil by done. constructor. }
  assert (∃ n, len = Z.of_nat n) as [n ->] by (exists (Z.to_nat len); lia).
  clear Hpos. revert a. induction n as [|n IH]; intros a; [constructor|].
  rewrite seqZ_cons by lia. constructor.
  - replace (Z.pred (Z.of_nat (S n))) with (Z.of_nat n) by lia. apply IH.
  - apply Forall_forall. intros x Hx. apply elem_of_seqZ in Hx. lia.
Qed.

Lemma StronglySorted_filter {A} (R : relation A) (P : A → Prop)
    `{∀ x, Decision (P x)} (l : list A) :
  StronglySorted R l → StronglySorted R (filter P l).
Proof.
  induction 1 as [|x l Hl IH Hx]; [constructor|].
  rewrite filter_cons. destruct (decide (P x)); [|done].
  constructor; [done|].
  apply Forall_forall. intros y Hy. apply list_elem_of_filter in Hy as [_ Hy].
  rewrite Forall_forall in Hx. by apply Hx.
Qed.

Lemma prime_trial m : Z.prime m ↔ trial_prime m.
Proof.
  split.
  - intros [Hgt Hnd]. split; [lia|].
    intros i Hi Hsq Hdiv. apply (Hnd i); [nia|done].
  - intros [Hge Htrial]. split; [lia|].
    intros k Hk [c Hc].
    destruct (Z.le_gt_cases (k * k) m) as [Hsq|Hsq].
    + apply (Htrial k); [lia|done|]. by exists c.
    + apply (Htrial c); [nia|nia|]. exists k. lia.
Qed.

(** ** Trial division and the sieve *)

Lemma struck_by_succ k m :
  2 ≤ k → struck_by (k + 1) m ↔ struck_by k m ∨ (k * k ≤ m ∧ (k | m)).
Proof.
  intros Hk. unfold struck_by. split.
  - intros (i & Hi & Hsq & Hdiv).
    destruct (decide (i = k)) as [->|]; [by right|].
    left. exists i. split; [lia|done].
  - intros [(i & Hi & H)|[Hsq Hdiv]].
    + exists i. split; [lia|done].
    + exists k. split; [lia|done].
Qed.

Lemma range_step_count_bound n i t :
  2 ≤ i → 0 ≤ t < (n + 1 - i * i + i - 1) `div` i → i * i + t * i ≤ n.
Proof.
  intros Hi Ht.
  pose proof (Z.mul_div_le (n + 1 - i * i + i - 1) i ltac:(lia)). nia.
Qed.

Lemma range_step_count_reach n i c :
  2 ≤ i → i * i ≤ c * i → c * i ≤ n →
  0 ≤ c - i < Z.max 0 ((n + 1 - i * i + i - 1) `div` i).
Proof.
  intros Hi Hsq Hn.
  pose proof (Z.mul_succ_div_gt (n + 1 - i * i + i - 1) i ltac:(lia)). nia.
Qed.

Lemma setitem_false_spec (s : list bool) j :
  0 ≤ j < Z.of_nat (length s) →
  ∃ s', setitem s j false = Ok s' ∧ length s' = length s ∧
    ∀ m, 0 ≤ m →
      s' !! Z.to_nat m = Some false ↔ s !! Z.to_nat m = Some false ∨ m = j.
Proof.
  intros Hj. rewrite setitem_ok by done.
  eexists. split; [done|]. split; [by rewrite length_insert|].
  intros m Hm. destruct (decide (m = j)) as [->|Hne].
  - rewrite list_lookup_insert_eq by lia. tauto.
  - rewrite list_lookup_insert_ne by lia. tauto.
Qed.

Lemma strike_multiples_spec n i (l : list bool) :
  2 ≤ i → length l = Z.to_nat (n + 1) →
  ∃ l', strike_multiples n i l = Ok l' ∧ length l' = length l ∧
    ∀ m, 0 ≤ m ≤ n →
      l' !! Z.to_nat m = Some false ↔
      l !! Z.to_nat m = Some false ∨ (i * i ≤ m ∧ (i | m)).
Proof.
  intros Hi Hlen. unfold strike_multiples, range_step.
  rewrite for_each_fmap.
  destruct (for_each_seqZ
    (λ t (l' : list bool), length l' = length l ∧
       ∀ m, 0 ≤ m ≤ n →
         l' !! Z.to_nat m = Some false ↔
         l !! Z.to_nat m = Some false ∨ ∃ u, 0 ≤ u < t ∧ m = i * i + u * i)
    (λ t is_prime, setitem is_prime (i * i + t * i) false)
    0 ((n + 1 - i * i + i - 1) `div` i) l) as (l' & Hrun & Hlen' & Hl').
  - split; [done|]. intros m Hm. split; [by left|].
    intros [?|(u & ? & _)]; [done|lia].
  - intros t s Ht [Hs Hinv].
    pose proof (range_step_count_bound n i t Hi ltac:(lia)) as Hj.
    destruct (setitem_false_spec s (i * i + t * i)) as (s' & -> & Hs' & Hset).
    { split; [nia|lia]. }
    exists s'. split; [done|]. split; [congruence|].
    intros m Hm. rewrite Hset, Hinv by lia. split.
    + intros [[?|(u & ? & ?)]|?]; [by left| |].
      * right. exists u. split; [lia|done].
      * right. exists t. split; [lia|done].
    + intros [?|(u & ? & Hu)]; [by left; left|].
      destruct (decide (u = t)) as [->|]; [by right|].
      left. right. exists u. split; [lia|done].
  - exists l'. split; [done|]. split; [done|].
    intros m Hm. rewrite Hl' by done. split.
    + intros [?|(u & Hu & ->)]; [by left|]. right. split; [nia|].
      exists (i + u). lia.
    + intros [?|[Hsq [c ->]]]; [by left|]. right.
      exists (c - i). split; [|lia].
      pose proof (range_step_count_reach n i c Hi Hsq ltac:(lia)). lia.
Qed.

Lemma sieve_step_spec n k (l : list bool) :
  2 ≤ k ≤ n → sieve_inv n k l →
  ∃ l', sieve_step n k l = Ok l' ∧ sieve_inv n (k + 1) l'.
Proof.
  intros Hk [Hlen Hinv]. unfold sieve_step.
  destruct (lookup_lt_is_Some_2 l (Z.to_nat k) ltac:(lia)) as [b Hb].
  rewrite (getitem_ok _ _ b) by (done || lia). simpl.
  destruct b.
  - destruct (strike_multiples_spec n k l ltac:(lia) Hlen)
      as (l' & -> & Hlen' & Hl').
    exists l'. split; [done|]. split; [congruence|].
    intros m Hm. rewrite Hl', Hinv, struck_by_succ by (done || lia). tauto.
  - exists l. split; [done|]. split; [done|].
    intros m Hm. rewrite Hinv, struck_by_succ by (done || lia).
    destruct (proj1 (Hinv k ltac:(lia)) Hb) as [?|(i & Hi & Hsq & Hdiv)]; [lia|].
    split; [tauto|]. intros [?|[?|[Hsq' Hdiv']]]; [tauto|tauto|].
    right. exists i. split; [lia|]. split; [nia|].
    by apply Z.divide_trans with k.
Qed.

Lemma sieve_init_spec n :
  1 ≤ n →
  sieve_inv n 2 (<[1%nat:=false]> (<[0%nat:=false]>
                   (replicate (Z.to_nat (n + 1)) true))).
Proof.
  intros Hn. split; [by rewrite !length_insert, length_replicate|].
  intros m Hm.
  destruct (decide (m = 1)) as [->|].
  { rewrite list_lookup_insert_eq
      by (rewrite length_insert, length_replicate; lia).
    split; [lia|done]. }
  rewrite list_lookup_insert_ne by lia.
  destruct (decide (m = 0)) as [->|].
  { rewrite list_lookup_insert_eq by (rewrite length_replicate; lia).
    split; [lia|done]. }
  rewrite list_lookup_insert_ne by lia.
  rewrite lookup_replicate_2 by lia.
  split; [done|]. intros [?|(i & ? & _)]; lia.
Qed.

Lemma select_marked_spec xs (l : list bool) :
  (∀ x, x ∈ xs → 0 ≤ x < Z.of_nat (length l)) →
  select_marked xs l = Ok (filter (λ i, l !! Z.to_nat i = Some true) xs).
Proof.
  induction xs as [|x xs IH]; intros Hxs; [done|].
  simpl. pose proof (Hxs x (list_elem_of_here _ _)) as Hx.
  destruct (lookup_lt_is_Some_2 l (Z.to_nat x) ltac:(lia)) as [b Hb].
  rewrite (getitem_ok _ _ b) by (done || lia). simpl.
  rewrite IH by (intros y Hy; apply Hxs; by apply list_elem_of_further).
  simpl. rewrite filter_cons.
  destruct b; destruct (decide _) as [Hd|Hd]; try done; congruence.
Qed.

(** What the outer loop leaves unmarked is what trial division accepts. *)
Lemma sieve_inv_final n (l : list bool) p :
  1 ≤ n → sieve_inv n (Z.sqrt n + 1) l → 2 ≤ p ≤ n →
  l !! Z.to_nat p = Some true ↔ Z.prime p.
Proof.
  intros Hn [Hlen Hinv] Hp. rewrite prime_trial.
  destruct (lookup_lt_is_Some_2 l (Z.to_nat p) ltac:(lia)) as [b Hb].
  pose proof (Hinv p ltac:(lia)) as Hfalse.
  pose proof (Z.sqrt_spec n ltac:(lia)) as Hsqrt.
  split.
  - intros Htrue. split; [lia|]. intros i Hi Hsq Hdiv.
    assert (l !! Z.to_nat p = Some false); [|congruence].
    apply Hfalse. right. exists i. split; [|done].
    cbv zeta in Hsqrt. unfold Z.succ in Hsqrt.
    assert (0 ≤ Z.sqrt n) by apply Z.sqrt_nonneg.
    destruct (Z.le_gt_cases i (Z.sqrt n)); [lia|nia].
  - intros [_ Htrial]. destruct b; [done|]. exfalso.
    destruct (proj1 Hfalse Hb) as [?|(i & Hi & Hsq & Hdiv)]; [lia|].
    by apply (Htrial i); [lia| |].
Qed.

(** From 1 on, [sieve_primes] returns, in ascending order, exactly the
    primes up to its argument. *)
Lemma sieve_primes_spec n :
  1 ≤ n →
  ∃ l, sieve_primes n = Ok l ∧ StronglySorted Z.lt l ∧
       ∀ p, p ∈ l ↔ Z.prime p ∧ p ≤ n.
Proof.
  intros Hn. unfold sieve_primes.
  rewrite setitem_ok by (rewrite length_replicate; lia). simpl.
  rewrite setitem_ok by (rewrite length_insert, length_replicate; lia).
  simpl. change (Z.to_nat 0) with 0%nat. change (Z.to_nat 1) with 1%nat.
  pose proof (Z.sqrt_le_lin n ltac:(lia)) as Hsqrt.
  assert (1 ≤ Z.sqrt n) as Hs1 by (apply Z.sqrt_le_square; lia).
  destruct (for_each_seqZ (sieve_inv n) (sieve_step n) 2 (Z.sqrt n + 1 - 2)
              _ (sieve_init_spec n Hn)) as (l & Hrun & Hinv).
  { intros k s Hk. apply sieve_step_spec. lia. }
  unfold range. rewrite Hrun. simpl.
  replace (2 + Z.max 0 (Z.sqrt n + 1 - 2)) with (Z.sqrt n + 1) in Hinv by lia.
  rewrite select_marked_spec.
  2:{ intros x Hx. apply elem_of_seqZ in Hx. destruct Hinv as [-> _]. lia. }
  eexists. split; [done|]. split.
  - apply StronglySorted_filter, StronglySorted_seqZ.
  - intros p. rewrite list_elem_of_filter, elem_of_seqZ. split.
    + intros [Htrue Hp]. split; [|lia].
      exact (proj1 (sieve_inv_final n l p Hn Hinv ltac:(lia)) Htrue).
    + intros [Hprime Hp]. pose proof (Z.prime_ge_2 _ Hprime).
      split; [|lia].
      exact (proj2 (sieve_inv_final n l p Hn Hinv ltac:(lia)) Hprime).
Qed.

Lemma sieve_primes_raise n : n ≤ 0 → sieve_primes n = Raise IndexError.
Proof.
  intros Hn. unfold sieve_primes.
  destruct (decide (n = 0)) as [->|Hne].
  - done.
  - rewrite setitem_raise; [done|lia|]. rewrite length_replicate. lia.
Qed.

(** ** Machine-integer evaluation agrees with the model *)

Lemma wB_value : wB = 9223372036854775808.
Proof. reflexivity. Qed.

Lemma to_Z_of_Z_small z : 0 ≤ z < wB → Uint63.to_Z (Uint63.of_Z z) = z.
Proof. intros Hz. rewrite Uint63.of_Z_spec. by apply Z.mod_small. Qed.

Lemma of_Z_succ a :
  0 ≤ a < wB - 1 → Uint63.add (Uint63.of_Z a) 1 = Uint63.of_Z (a + 1).
Proof.
  intros Ha. apply Uint63.to_Z_inj.
  rewrite Uint63.add_spec, !to_Z_of_Z_small by lia.
  change (Uint63.to_Z 1%uint63) with 1. apply Z.mod_small. lia.
Qed.

Lemma eqb_to_Z x y : Uint63.eqb x y = (Uint63.to_Z x =? Uint63.to_Z y).
Proof.
  destruct (Uint63.eqb x y) eqn:Hxy.
  - apply Uint63.eqb_spec in Hxy as ->. by rewrite Z.eqb_refl.
  - symmetry. apply Z.eqb_neq. intros Heq%Uint63.to_Z_inj.
    apply Uint63.eqb_false_spec in Hxy. done.
Qed.

Lemma is_zero_to_Z x : Uint63.is_zero x = (Uint63.to_Z x =? 0).
Proof. unfold Uint63.is_zero. by rewrite eqb_to_Z. Qed.

Lemma pow_mod_fast b e m :
  0 < Uint63.to_Z m < 2 ^ 31 → Uint63.to_Z b < Uint63.to_Z m →
  (Uint63.to_Z (Fast.pow_mod b e m) = (Uint63.to_Z b ^ Z.pos e) `mod` Uint63.to_Z m).
Proof.
  intros Hm Hb. pose proof (Uint63.to_Z_bounded b) as Hb0.
  pose proof wB_value as HwB.
  assert (∀ x y, 0 ≤ x < Uint63.to_Z m → 0 ≤ y < Uint63.to_Z m → (x * y) `mod` wB = x * y)
    as Hsmall.
  { intros x y Hx Hy. apply Z.mod_small. nia. }
  induction e as [e IH|e IH|]; simpl Fast.pow_mod.
  - rewrite !Uint63.mod_spec, !Uint63.mul_spec, Uint63.mod_spec.
    rewrite Uint63.mul_spec, IH.
    pose proof (Z.mod_pos_bound (Uint63.to_Z b ^ Z.pos e) (Uint63.to_Z m)
                  ltac:(lia)) as Hr.
    rewrite (Hsmall _ _ Hr Hr).
    pose proof (Z.mod_pos_bound
      ((Uint63.to_Z b ^ Z.pos e) `mod` Uint63.to_Z m * (Uint63.to_Z b ^ Z.pos e) `mod` Uint63.to_Z m)
      (Uint63.to_Z m) ltac:(lia)) as Hr2.
    rewrite (Hsmall _ (Uint63.to_Z b) Hr2 ltac:(lia)).
    rewrite <- Zmult_mod, Zmult_mod_idemp_l.
    f_equal. rewrite Pos2Z.inj_xI.
    rewrite Z.pow_add_r, Z.pow_1_r by lia.
    replace (2 * Z.pos e) with (Z.pos e + Z.pos e) by lia.
    by rewrite Z.pow_add_r by lia.
  - rewrite Uint63.mod_spec, Uint63.mul_spec, IH.
    pose proof (Z.mod_pos_bound (Uint63.to_Z b ^ Z.pos e) (Uint63.to_Z m)
                  ltac:(lia)) as Hr.
    rewrite (Hsmall _ _ Hr Hr), <- Zmult_mod.
    f_equal. rewrite Pos2Z.inj_xO.
    replace (2 * Z.pos e) with (Z.pos e + Z.pos e) by lia.
    by rewrite Z.pow_add_r by lia.
  - rewrite Z.pow_1_r. symmetry. apply Z.mod_small. lia.
Qed.

Lemma q_mod_fast n p :
  0 ≤ n < wB → 0 < p < 2 ^ 31 →
  Uint63.to_Z (Fast.q_mod (Uint63.of_Z n) (Uint63.of_Z p)) = q_mod n p.
Proof.
  intros Hn Hp. pose proof wB_value as HwB.
  unfold Fast.q_mod, q_mod, pow3.
  set (n' := Uint63.of_Z n). set (p' := Uint63.of_Z p).
  assert (Uint63.to_Z n' = n) as Hn' by (apply to_Z_of_Z_small; lia).
  assert (Uint63.to_Z p' = p) as Hp' by (apply to_Z_of_Z_small; lia).
  pose proof (Z.mod_pos_bound n p ltac:(lia)) as Ha.
  assert (Uint63.to_Z (Uint63.mod n' p') = n `mod` p) as Ha'
    by (by rewrite Uint63.mod_spec, Hn', Hp').
  assert (Uint63.to_Z (Uint63.mod (Uint63.sub (Uint63.add (Uint63.mod n' p') p') 1) p')
          = (n - 1) `mod` p) as Hb'.
  { rewrite Uint63.mod_spec, Uint63.sub_spec, Uint63.add_spec, Ha', Hp'.
    change (Uint63.to_Z 1%uint63) with 1.
    rewrite (Z.mod_small (n `mod` p + p)) by lia.
    rewrite (Z.mod_small (n `mod` p + p - 1)) by lia.
    replace (n `mod` p + p - 1) with (n `mod` p - 1 + 1 * p) by lia.
    rewrite Z.mod_add by lia.
    by rewrite Zminus_mod_idemp_l. }
  pose proof (Z.mod_pos_bound (n - 1) p ltac:(lia)) as Hb.
  rewrite Uint63.mod_spec, Uint63.sub_spec, Uint63.add_spec.
  rewrite !pow_mod_fast by (rewrite ?Ha', ?Hb', Hp'; lia).
  rewrite Ha', Hb', Hp'.
  pose proof (Z.mod_pos_bound ((n `mod` p) ^ 47) p ltac:(lia)) as Hx.
  pose proof (Z.mod_pos_bound (((n - 1) `mod` p) ^ 47) p ltac:(lia)) as Hy.
  rewrite (Z.mod_small (_ + p)) by lia.
  rewrite (Z.mod_small (_ + p - _)) by lia.
  rewrite (Z.mod_pow_l n) in *.
  set (x := n ^ 47 `mod` p) in *. set (y := ((n - 1) `mod` p) ^ 47 `mod` p) in *.
  replace (x + p - y) with (x - y + 1 * p) by lia.
  by rewrite Z.mod_add by lia.
Qed.

Lemma fold_from_seqZ {St} (f : St → Z → St) (g : St → int → St) a len s :
  0 ≤ a → a + len < wB →
  (∀ s k, a ≤ k < a + len → g s (Uint63.of_Z k) = f s k) →
  fold_left f (seqZ a len) s
  = Fast.fold_from (Z.to_nat len) (Uint63.of_Z a) g s.
Proof.
  destruct (Z.le_gt_cases len 0) as [Hle|Hpos].
  { intros _ _ _. rewrite seqZ_nil by done.
    by replace (Z.to_nat len) with 0%nat by lia. }
  assert (∃ n, len = Z.of_nat n) as [n ->] by (exists (Z.to_nat len); lia).
  clear Hpos. rewrite Nat2Z.id.
  revert a s. induction n as [|n IH]; intros a s Ha Hlen Hfg; [done|].
  rewrite seqZ_cons by lia. simpl.
  rewrite Hfg, of_Z_succ by lia.
  replace (Z.pred (Z.of_nat (S n))) with (Z.of_nat n) by lia.
  apply IH; [lia|lia|]. intros s' k Hk. apply Hfg. lia.
Qed.

Lemma scan_from_seqZ (f : Z → bool) (g : int → bool) a len :
  0 ≤ a → a + len < wB →
  (∀ k, a ≤ k < a + len → g (Uint63.of_Z k) = f k) →
  scan (seqZ a len) f = Fast.scan_from (Z.to_nat len) (Uint63.of_Z a) g.
Proof.
  destruct (Z.le_gt_cases len 0) as [Hle|Hpos].
  { intros _ _ _. rewrite seqZ_nil by done.
    by replace (Z.to_nat len) with 0%nat by lia. }
  assert (∃ n, len = Z.of_nat n) as [n ->] by (exists (Z.to_nat len); lia).
  clear Hpos. rewrite Nat2Z.id.
  revert a. induction n as [|n IH]; intros a Ha Hlen Hfg; [done|].
  rewrite seqZ_cons by lia. simpl.
  rewrite Hfg, of_Z_succ by lia. destruct (f a); [done|].
  replace (Z.pred (Z.of_nat (S n))) with (Z.of_nat n) by lia.
  apply IH; [lia|lia|]. intros k Hk. apply Hfg. lia.
Qed.

Lemma omega_brute_force_fast p :
  0 < p < 2 ^ 31 → omega_brute_force p = Fast.omega_brute_force p.
Proof.
  intros Hp. pose proof wB_value as HwB.
  unfold omega_brute_force, Fast.omega_brute_force, range.
  rewrite Z.sub_0_r.
  apply (fold_from_seqZ _
    (λ count n, if Uint63.is_zero (Fast.q_mod n (Uint63.of_Z p))
                then count + 1 else count)); [lia|lia|].
  intros count k Hk. by rewrite is_zero_to_Z, q_mod_fast by lia.
Qed.

Lemma verify_mod47_fast n_max :
  n_max + 1 < wB → verify_mod47 n_max = Fast.verify_mod47 n_max.
Proof.
  intros Hn. pose proof wB_value as HwB.
  unfold verify_mod47, Fast.verify_mod47, range. rewrite Z.sub_0_r.
  apply (scan_from_seqZ _
    (λ n, negb (Uint63.eqb (Fast.q_mod n 47%uint63) 1%uint63)));
    [lia|lia|].
  intros k Hk. rewrite eqb_to_Z.
  change 47%uint63 with (Uint63.of_Z 47). by rewrite q_mod_fast by lia.
Qed.

Lemma no_small_divisor_fast small_primes n :
  0 ≤ n < wB → (∀ p, p ∈ small_primes → 0 < p < 2 ^ 31) →
  existsb (λ p, Uint63.is_zero (Fast.q_mod (Uint63.of_Z n) p))
          (Uint63.of_Z <$> small_primes)
  = negb (scan small_primes (λ p, q_mod n p =? 0)).
Proof.
  intros Hn. induction small_primes as [|p ps IH]; intros Hps; [done|].
  simpl. rewrite is_zero_to_Z, q_mod_fast
    by (done || apply Hps, list_elem_of_here).
  destruct (q_mod n p =? 0); [done|]. simpl.
  apply IH. intros q Hq. apply Hps. by apply list_elem_of_further.
Qed.

Lemma no_small_divisors_fast small_primes n_max :
  n_max + 1 < wB → (∀ p, p ∈ small_primes → 0 < p < 2 ^ 31) →
  scan (range 2 (n_max + 1))
       (λ n, negb (scan small_primes (λ p, q_mod n p =? 0)))
  = Fast.no_small_divisors small_primes n_max.
Proof.
  intros Hn Hps. pose proof wB_value as HwB.
  unfold Fast.no_small_divisors, range.
  apply (scan_from_seqZ _
    (λ n, existsb (λ p, Uint63.is_zero (Fast.q_mod n p))
                  (Uint63.of_Z <$> small_primes))); [lia|lia|].
  intros k Hk. apply no_small_divisor_fast; [lia|done].
Qed.

(** ** The prime tables *)

Lemma trial_primeb_spec m : trial_primeb m = true ↔ Z.prime m.
Proof.
  rewrite prime_trial. unfold trial_primeb, trial_prime.
  rewrite andb_true_iff, Z.leb_le, forallb_forall.
  split; intros [Hge Hdiv]; (split; [done|]).
  - intros i Hi Hsq Hd.
    assert (i ≤ Z.sqrt m) as Hle by (apply Z.sqrt_le_square; lia).
    assert (In i (seqZ 2 (Z.sqrt m - 1))) as Hin.
    { apply list_elem_of_In, elem_of_seqZ. lia. }
    apply Hdiv in Hin. apply negb_true_iff, Z.eqb_neq in Hin.
    apply Hin, Z.mod_divide; [lia|done].
  - intros i Hin%list_elem_of_In%elem_of_seqZ.
    apply negb_true_iff, Z.eqb_neq. intros Hmod.
    apply (Hdiv i); [lia| |by apply Z.mod_divide; [lia|]].
    pose proof (Z.sqrt_spec m ltac:(lia)) as Hsqrt. cbv zeta in Hsqrt. nia.
Qed.

Lemma table_ok_elem fuel m l p :
  table_ok fuel m l = true →
  p ∈ l ↔ m ≤ p < m + Z.of_nat fuel ∧ Z.prime p.
Proof.
  revert m l. induction fuel as [|fuel IH]; intros m l Hok.
  { destruct l; [|done]. rewrite elem_of_nil. lia. }
  assert (∀ l', negb (trial_primeb m) && table_ok fuel (m + 1) l' = true →
            p ∈ l' ↔ m ≤ p < m + Z.of_nat (S fuel) ∧ Z.prime p) as Hskip.
  { intros l' [Hm Hl']%andb_true_iff. rewrite (IH _ _ Hl').
    apply negb_true_iff in Hm.
    split; [intros [? ?]; split; [lia|done]|].
    intros [Hp Hprime]. split; [|done].
    destruct (decide (p = m)) as [->|]; [|lia].
    apply trial_primeb_spec in Hprime. congruence. }
  simpl in Hok. destruct l as [|q l']; [by apply Hskip|].
  destruct (Z.eqb_spec q m) as [->|Hne]; [|by apply Hskip].
  apply andb_true_iff in Hok as [Hm Hl'].
  rewrite elem_of_cons, (IH _ _ Hl'). apply trial_primeb_spec in Hm.
  split.
  - intros [->|[? ?]]; (split; [lia|done]).
  - intros [Hp Hprime]. destruct (decide (p = m)); [by left|right].
    split; [lia|done].
Qed.

Lemma table_ok_sorted fuel m l :
  table_ok fuel m l = true → StronglySorted Z.lt l.
Proof.
  revert m l. induction fuel as [|fuel IH]; intros m l Hok.
  { destruct l; [constructor|done]. }
  simpl in Hok. destruct l as [|q l']; [constructor|].
  destruct (Z.eqb_spec q m) as [->|Hne];
    apply andb_true_iff in Hok as [Hm Hl']; [|by apply (IH (m + 1))].
  constructor; [by apply (IH (m + 1))|].
  apply Forall_forall. intros p Hp.
  apply (table_ok_elem _ _ _ p Hl') in Hp. lia.
Qed.

(** Two strictly ascending lists with the same elements are equal. *)
Lemma StronglySorted_lt_ext (l1 l2 : list Z) :
  StronglySorted Z.lt l1 → StronglySorted Z.lt l2 →
  (∀ p, p ∈ l1 ↔ p ∈ l2) → l1 = l2.
Proof.
  intros H1. revert l2. induction H1 as [|x l1 Hl1 IH Hx]; intros l2 H2 Hmem.
  { destruct l2 as [|y l2]; [done|].
    specialize (Hmem y). rewrite elem_of_nil, elem_of_cons in Hmem. tauto. }
  destruct H2 as [|y l2 Hl2 Hy].
  { specialize (Hmem x). rewrite elem_of_nil, elem_of_cons in Hmem. tauto. }
  rewrite Forall_forall in Hx, Hy.
  assert (x = y) as <-.
  { pose proof (proj1 (Hmem x) (list_elem_of_here _ _)) as Hxy.
    pose proof (proj2 (Hmem y) (list_elem_of_here _ _)) as Hyx.
    apply elem_of_cons in Hxy as [?|Hxy]; [done|].
    apply elem_of_cons in Hyx as [?|Hyx]; [done|].
    apply Hy in Hxy. apply Hx in Hyx. lia. }
  f_equal. apply IH; [done|]. intros p. specialize (Hmem p).
  rewrite !elem_of_cons in Hmem. split; intros Hp.
  - destruct (proj1 Hmem (or_intror Hp)) as [->|?]; [|done].
    apply Hx in Hp. lia.
  - destruct (proj2 Hmem (or_intror Hp)) as [->|?]; [|done].
    apply Hy in Hp. lia.
Qed.

(** A table that passes the trial-division check is what the sieve
    returns. *)
Lemma sieve_primes_table n l :
  1 ≤ n → table_ok (Z.to_nat (n - 1)) 2 l = true → sieve_primes n = Ok l.
Proof.
  intros Hn Hok.
  destruct (sieve_primes_spec n Hn) as (l' & -> & Hsorted & Hmem).
  f_equal. apply StronglySorted_lt_ext; [done|by eapply table_ok_sorted|].
  intros p. rewrite Hmem, (table_ok_elem _ _ _ p Hok). split.
  - intros [Hp Hle]. pose proof (Z.prime_ge_2 _ Hp). split; [lia|done].
  - intros [Hp Hprime]. split; [done|lia].
Qed.

Lemma sieve_primes_6299 : sieve_primes 6299 = Ok primes_6299.
Proof.
  apply sieve_primes_table; [lia|]. vm_cast_no_check (eq_refl true).
Qed.

Lemma sieve_primes_300 : sieve_primes 300 = Ok primes_300.
Proof.
  apply sieve_primes_table; [lia|]. vm_cast_no_check (eq_refl true).
Qed.

Lemma sieve_primes_282 : sieve_primes 282 = Ok primes_282.
Proof.
  apply sieve_primes_table; [lia|]. vm_cast_no_check (eq_refl true).
Qed.

(** Whatever [sieve_primes] returns is the set of primes up to its
    argument. *)
Lemma sieve_primes_elem n l p :
  sieve_primes n = Ok l → p ∈ l ↔ Z.prime p ∧ p ≤ n.
Proof.
  intros Hl. destruct (Z.le_gt_cases n 0) as [Hn|Hn].
  { by rewrite sieve_primes_raise in Hl. }
  destruct (sieve_primes_spec n ltac:(lia)) as (l' & Hl' & _ & Hmem).
  rewrite Hl in Hl'. by injection Hl' as ->.
Qed.

(** A boolean test that holds on the whole table holds at every prime up
    to the bound. *)
Lemma sieve_primes_forallb n l (f : Z → bool) p :
  sieve_primes n = Ok l → forallb f l = true →
  Z.prime p → p ≤ n → f p = true.
Proof.
  intros Hl Hall Hp Hle.
  rewrite forallb_forall in Hall. apply Hall.
  apply list_elem_of_In. by apply (sieve_primes_elem n l p Hl).
Qed.

Lemma fast_omega_agree_6299 :
  forallb (λ p, Fast.omega_brute_force p =? omega_theory p) primes_6299
  = true.
Proof. vm_cast_no_check (eq_refl true). Qed.

Lemma fast_verify_mod47_100000 : Fast.verify_mod47 100000 = true.
Proof. vm_cast_no_check (eq_refl true). Qed.

Lemma fast_no_small_divisors_10000 :
  Fast.no_small_divisors primes_282 10000 = true.
Proof. vm_cast_no_check (eq_refl true). Qed.

Lemma no_bad_prime_below_283 :
  forallb (λ p, negb ((p - 1) `mod` 47 =? 0) || (283 <=? p)) primes_300
  = true.
Proof. vm_cast_no_check (eq_refl true). Qed.

Lemma first_bad_prime_300 : first_bad_prime_is_283 primes_300 = true.
Proof. vm_cast_no_check (eq_refl true). Qed.

Lemma prime_of_table n l p :
  sieve_primes n = Ok l → existsb (Z.eqb p) l = true → Z.prime p.
Proof.
  intros Hl (x & Hx & ->%Z.eqb_eq)%existsb_exists.
  by apply (sieve_primes_elem n l x Hl), list_elem_of_In.
Qed.

Lemma prime_283 : Z.prime 283.
Proof.
  apply (prime_of_table 300 primes_300 283 sieve_primes_300).
  vm_cast_no_check (eq_refl true).
Qed.

Lemma prime_281 : Z.prime 281.
Proof.
  apply (prime_of_table 300 primes_300 281 sieve_primes_300).
  vm_cast_no_check (eq_refl true).
Qed.

Lemma verify_omega_run p_max primes :
  sieve_primes p_max = Ok primes →
  (∀ p, p ∈ primes → omega_brute_force p = omega_theory p) →
  verify_omega p_max = Ok true.
Proof.
  intros Hsieve Hagree. unfold verify_omega. rewrite Hsieve.
  change (Ok ?l ≫= ?f) with (f l). cbv beta. f_equal. clear Hsieve.
  induction primes as [|p primes IH]; [done|].
  simpl. rewrite (Hagree p) by apply list_elem_of_here.
  rewrite Z.eqb_refl. simpl.
  apply IH. intros q Hq. apply Hagree. by apply list_elem_of_further.
Qed.

Lemma StronglySorted_lt_NoDup (l : list Z) : StronglySorted Z.lt l → NoDup l.
Proof.
  induction 1 as [|x l Hl IH Hx]; constructor; [|done].
  intros Hin. rewrite Forall_forall in Hx. specialize (Hx x Hin). lia.
Qed.

(** ** Binary64 arithmetic: [1 - 1 / p] is never zero

    The divisor of the local factor.  The facts below follow the
    specification of binary64 rounding ([SpecFloat]) that the kernel's
    floats are axiomatised by: [binary_round_aux] shifts a mantissa to 53
    bits, rounds to nearest even and shifts once more. *)

Lemma fexp_eq k : fexp prec emax k = Z.max (k - 53) (-1074).
Proof. reflexivity. Qed.

Lemma digits2_pos_bounds p :
  2 ^ (Z.pos (digits2_pos p) - 1) ≤ Z.pos p < 2 ^ Z.pos (digits2_pos p).
Proof.
  induction p as [p IH|p IH|]; simpl digits2_pos.
  - rewrite Pos2Z.inj_succ, Z.pow_succ_r by lia.
    replace (Z.succ (Z.pos (digits2_pos p)) - 1)
      with (Z.succ (Z.pos (digits2_pos p) - 1)) by lia.
    rewrite Z.pow_succ_r by lia. lia.
  - rewrite Pos2Z.inj_succ, Z.pow_succ_r by lia.
    replace (Z.succ (Z.pos (digits2_pos p)) - 1)
      with (Z.succ (Z.pos (digits2_pos p) - 1)) by lia.
    rewrite Z.pow_succ_r by lia. lia.
  - simpl. lia.
Qed.

Lemma Zdigits2_bounds m :
  0 < m → 1 ≤ Zdigits2 m ∧ 2 ^ (Zdigits2 m - 1) ≤ m < 2 ^ Zdigits2 m.
Proof.
  intros Hm. destruct m as [|p|p]; [lia| |lia].
  simpl Zdigits2. split; [lia|apply digits2_pos_bounds].
Qed.

Lemma Zdigits2_nonneg m : 0 ≤ m → 0 ≤ Zdigits2 m.
Proof.
  intros Hm. destruct m as [|p|p]; simpl; lia.
Qed.

Lemma Zdigits2_le m k : 0 ≤ k → 0 ≤ m < 2 ^ k → Zdigits2 m ≤ k.
Proof.
  intros Hk Hm. destruct (decide (m = 0)) as [->|Hne]; [simpl; lia|].
  destruct (Zdigits2_bounds m ltac:(lia)) as [Hd [Hlo _]].
  destruct (Z.le_gt_cases (Zdigits2 m) k) as [|Hgt]; [assumption|exfalso].
  assert (2 ^ k ≤ 2 ^ (Zdigits2 m - 1)) by (apply Z.pow_le_mono_r; lia).
  lia.
Qed.

Lemma Zdigits2_ge m k : 2 ^ (k - 1) ≤ m → 1 ≤ k → k ≤ Zdigits2 m.
Proof.
  intros Hm Hk.
  assert (0 < 2 ^ (k - 1)) by (apply Z.pow_pos_nonneg; lia).
  destruct (Zdigits2_bounds m ltac:(lia)) as [Hd [_ Hhi]].
  destruct (Z.le_gt_cases k (Zdigits2 m)) as [|Hgt]; [assumption|exfalso].
  assert (2 ^ Zdigits2 m ≤ 2 ^ (k - 1)) by (apply Z.pow_le_mono_r; lia).
  lia.
Qed.

Lemma shr_m_shr_1 mrs : 0 ≤ shr_m mrs → shr_m (shr_1 mrs) = shr_m mrs `div` 2.
Proof.
  destruct mrs as [m r s]. cbn [shr_m]. intros Hm.
  destruct m as [|[p|p|]|p]; cbn [shr_1 shr_m]; try reflexivity; try lia.
  - apply Z.div_unique with 1; lia.
  - apply Z.div_unique with 0; lia.
Qed.

Lemma shr_m_iter_pos n mrs :
  0 ≤ shr_m mrs →
  shr_m (SpecFloat.iter_pos shr_1 n mrs) = shr_m mrs `div` 2 ^ Z.pos n.
Proof.
  revert mrs. induction n as [n IH|n IH|]; intros mrs Hm; simpl SpecFloat.iter_pos.
  - assert (0 ≤ shr_m (shr_1 mrs)) as H1
      by (rewrite shr_m_shr_1 by done; apply Z.div_pos; lia).
    assert (0 ≤ shr_m (SpecFloat.iter_pos shr_1 n (shr_1 mrs))) as H2
      by (rewrite IH by done; apply Z.div_pos; [done|apply Z.pow_pos_nonneg; lia]).
    rewrite IH, IH, shr_m_shr_1 by done.
    rewrite !Z.div_div by (try apply Z.pow_pos_nonneg; lia).
    f_equal.
    replace (Z.pos n~1) with (1 + Z.pos n + Z.pos n) by lia.
    rewrite !Z.pow_add_r by lia. lia.
  - assert (0 ≤ shr_m (SpecFloat.iter_pos shr_1 n mrs)) as H2
      by (rewrite IH by done; apply Z.div_pos; [done|apply Z.pow_pos_nonneg; lia]).
    rewrite IH, IH by done.
    rewrite !Z.div_div by (try apply Z.pow_pos_nonneg; lia).
    f_equal.
    replace (Z.pos n~0) with (Z.pos n + Z.pos n) by lia.
    rewrite !Z.pow_add_r by lia. lia.
  - rewrite shr_m_shr_1 by done. reflexivity.
Qed.

Lemma shr_spec mrs e n :
  0 ≤ shr_m mrs →
  shr_m (shr mrs e n).1 = shr_m mrs `div` 2 ^ Z.max 0 n ∧
  (shr mrs e n).2 = e + Z.max 0 n.
Proof.
  intros Hm. destruct n as [|n|n]; simpl.
  - rewrite Z.div_1_r. lia.
  - rewrite shr_m_iter_pos by done. split; [reflexivity|lia].
  - rewrite Z.div_1_r. lia.
Qed.

Lemma shr_m_of_loc m l : shr_m (shr_record_of_loc m l) = m.
Proof. by destruct l as [|[]]. Qed.

Lemma shr_fexp_spec m e l :
  0 ≤ m →
  shr_m (shr_fexp prec emax m e l).1
  = m `div` 2 ^ Z.max 0 (fexp prec emax (Zdigits2 m + e) - e) ∧
  (shr_fexp prec emax m e l).2
  = e + Z.max 0 (fexp prec emax (Zdigits2 m + e) - e).
Proof.
  intros Hm. unfold shr_fexp.
  pose proof (shr_spec (shr_record_of_loc m l) e
                (fexp prec emax (Zdigits2 m + e) - e)) as H.
  rewrite shr_m_of_loc in H. apply H. exact Hm.
Qed.

Lemma round_nearest_even_bounds m l :
  m ≤ round_nearest_even m l ≤ m + 1.
Proof. destruct l as [|[]]; simpl; try lia. destruct (Z.even m); lia. Qed.

Lemma binary_round_aux_spec s m e l :
  0 ≤ m →
  ∃ r, m `div` 2 ^ shift_of m e ≤ r ≤ m `div` 2 ^ shift_of m e + 1 ∧
       binary_round_aux prec emax s m e l
       = match r `div` 2 ^ shift_of r (e + shift_of m e) with
         | 0 => S754_zero s
         | Z.pos mm =>
             if e + shift_of m e + shift_of r (e + shift_of m e) <=? 971
             then S754_finite s mm
                    (e + shift_of m e + shift_of r (e + shift_of m e))
             else S754_infinity s
         | Z.neg _ => S754_nan
         end.
Proof.
  intros Hm. unfold binary_round_aux.
  destruct (shr_fexp_spec m e l Hm) as [H1 H2].
  destruct (shr_fexp prec emax m e l) as [mrs' e'].
  cbn [fst snd] in H1, H2. fold (shift_of m e) in H1, H2.
  pose proof (round_nearest_even_bounds (shr_m mrs') (loc_of_shr_record mrs'))
    as Hr.
  set (r := round_nearest_even (shr_m mrs') (loc_of_shr_record mrs')) in *.
  assert (0 ≤ shr_m mrs') as Hm1
    by (rewrite H1; apply Z.div_pos; [done|apply Z.pow_pos_nonneg; [lia|]];
        unfold shift_of; lia).
  destruct (shr_fexp_spec r e' loc_Exact ltac:(lia)) as [H3 H4].
  destruct (shr_fexp prec emax r e' loc_Exact) as [mrs'' e''].
  cbn [fst snd] in H3, H4. fold (shift_of r e') in H3, H4.
  exists r. split; [lia|].
  rewrite H3, H4, H2. reflexivity.
Qed.

Lemma shift_of_nonneg m e : 0 ≤ shift_of m e.
Proof. unfold shift_of. lia. Qed.

Lemma shift_pos m e :
  0 < m → -1074 ≤ e →
  0 < m `div` 2 ^ shift_of m e ∧ -1074 ≤ e + shift_of m e.
Proof.
  intros Hm He. destruct (Zdigits2_bounds m Hm) as [Hd [Hlo _]].
  unfold shift_of. rewrite fexp_eq.
  set (n := Z.max 0 (Z.max (Zdigits2 m + e - 53) (-1074) - e)).
  assert (0 ≤ n ≤ Zdigits2 m - 1) as Hn by lia.
  split; [|lia].
  assert (2 ^ n ≤ 2 ^ (Zdigits2 m - 1)) by (apply Z.pow_le_mono_r; lia).
  apply Z.div_str_pos. split; [apply Z.pow_pos_nonneg; lia|lia].
Qed.

Lemma shift_half m e :
  0 ≤ m ≤ 2 ^ (- e - 1) → e ≤ -53 →
  e + shift_of m e ≤ -53 ∧
  m `div` 2 ^ shift_of m e ≤ 2 ^ (- (e + shift_of m e) - 1).
Proof.
  intros Hm He.
  assert (Zdigits2 m ≤ - e) as Hd.
  { apply Zdigits2_le; [lia|].
    replace (- e) with (Z.succ (- e - 1)) by lia.
    rewrite Z.pow_succ_r by lia. lia. }
  pose proof (Zdigits2_nonneg m ltac:(lia)) as Hd0.
  unfold shift_of. rewrite fexp_eq.
  set (n := Z.max 0 (Z.max (Zdigits2 m + e - 53) (-1074) - e)).
  assert (0 ≤ n ∧ e + n ≤ -53) as [Hn0 Hn] by lia.
  split; [lia|].
  replace (- (e + n) - 1) with (- e - 1 - n) by lia.
  rewrite Z.pow_sub_r by lia.
  apply Z.div_le_mono; [apply Z.pow_pos_nonneg; lia|lia].
Qed.

Lemma shift_lt_one m e :
  0 ≤ m < 2 ^ (- e) → e ≤ -53 → e + shift_of m e ≤ -53.
Proof.
  intros Hm He.
  assert (Zdigits2 m ≤ - e) as Hd by (apply Zdigits2_le; lia).
  pose proof (Zdigits2_nonneg m ltac:(lia)) as Hd0.
  unfold shift_of. rewrite fexp_eq. lia.
Qed.

Lemma binary_round_aux_nonzero s m e l s' :
  0 < m → -1074 ≤ e → binary_round_aux prec emax s m e l ≠ S754_zero s'.
Proof.
  intros Hm He.
  destruct (binary_round_aux_spec s m e l ltac:(lia)) as (r & Hr & ->).
  destruct (shift_pos m e Hm He) as [Hm1 He1].
  destruct (shift_pos r (e + shift_of m e) ltac:(lia) He1) as [Hm2 _].
  destruct (r `div` 2 ^ shift_of r (e + shift_of m e)); [lia| |lia].
  destruct (_ <=? _); discriminate.
Qed.

Lemma binary_round_aux_exponent s m e l s' mm ee :
  0 ≤ m ≤ 2 ^ (- e - 1) → e ≤ -53 →
  binary_round_aux prec emax s m e l = S754_finite s' mm ee → ee ≤ -53.
Proof.
  intros Hm He.
  destruct (binary_round_aux_spec s m e l ltac:(lia)) as (r & Hr & ->).
  destruct (shift_half m e Hm He) as [He1 Hm1].
  assert (0 ≤ m `div` 2 ^ shift_of m e) as Hm0
    by (apply Z.div_pos; [lia|apply Z.pow_pos_nonneg;
                               [lia|apply shift_of_nonneg]]).
  assert (r < 2 ^ (- (e + shift_of m e))) as Hr1.
  { replace (- (e + shift_of m e))
      with (Z.succ (- (e + shift_of m e) - 1)) by lia.
    rewrite Z.pow_succ_r by lia.
    assert (2 ^ 1 ≤ 2 ^ (- (e + shift_of m e) - 1))
      by (apply Z.pow_le_mono_r; lia).
    change (2 ^ 1) with 2 in *. lia. }
  pose proof (shift_lt_one r (e + shift_of m e) ltac:(lia) He1) as He2.
  destruct (r `div` 2 ^ shift_of r (e + shift_of m e)); [discriminate| |discriminate].
  destruct (_ <=? _); [|discriminate].
  intros [= _ _ <-]. exact He2.
Qed.

Lemma Zdigits2_unique m d :
  1 ≤ d → 2 ^ (d - 1) ≤ m < 2 ^ d → Zdigits2 m = d.
Proof.
  intros Hd Hm.
  assert (0 < 2 ^ (d - 1)) by (apply Z.pow_pos_nonneg; lia).
  pose proof (Zdigits2_le m d ltac:(lia) ltac:(lia)).
  pose proof (Zdigits2_ge m d ltac:(lia) Hd). lia.
Qed.

Lemma div_pow_bounds m a b n :
  0 ≤ n ≤ a → a ≤ b → 2 ^ a ≤ m < 2 ^ b →
  2 ^ (a - n) ≤ m `div` 2 ^ n < 2 ^ (b - n).
Proof.
  intros Hn Hab Hm.
  assert (0 < 2 ^ n) by (apply Z.pow_pos_nonneg; lia).
  assert (2 ^ a = 2 ^ n * 2 ^ (a - n)) as Ha
    by (rewrite <- Z.pow_add_r by lia; f_equal; lia).
  assert (2 ^ b = 2 ^ n * 2 ^ (b - n)) as Hb
    by (rewrite <- Z.pow_add_r by lia; f_equal; lia).
  split.
  - apply Z.div_le_lower_bound; lia.
  - apply Z.div_lt_upper_bound; lia.
Qed.

Lemma Pos_iter_xO m d : Z.pos (Pos.iter xO m d) = Z.pos m * 2 ^ Z.pos d.
Proof.
  induction d as [|d IH] using Pos.peano_ind.
  - cbn [Pos.iter]. lia.
  - rewrite Pos.iter_succ, Pos2Z.inj_xO, IH, Pos2Z.inj_succ, Z.pow_succ_r by lia.
    lia.
Qed.

Lemma shl_align_spec mx ex ex' :
  (shl_align mx ex ex').2 = Z.min ex ex' ∧
  Z.pos (shl_align mx ex ex').1 = Z.pos mx * 2 ^ (ex - Z.min ex ex').
Proof.
  unfold shl_align. destruct (ex' - ex) as [|d|d] eqn:E; cbn [fst snd].
  - replace (ex - Z.min ex ex') with 0 by lia. split; lia.
  - replace (ex - Z.min ex ex') with 0 by lia. split; lia.
  - rewrite Pos_iter_xO. replace (ex - Z.min ex ex') with (Z.pos d) by lia.
    split; lia.
Qed.

Lemma binary_round_spec s mx ex :
  ∃ mz ez, ez = Z.min ex (fexp prec emax (Z.pos (digits2_pos mx) + ex)) ∧
           Z.pos mz = Z.pos mx * 2 ^ (ex - ez) ∧
           binary_round prec emax s mx ex
           = binary_round_aux prec emax s (Z.pos mz) ez loc_Exact.
Proof.
  unfold binary_round.
  destruct (shl_align_spec mx ex
              (fexp prec emax (Z.pos (digits2_pos mx) + ex))) as [H2 H1].
  destruct (shl_align mx ex _) as [mz ez]. cbn [fst snd] in H1, H2.
  exists mz, ez. subst ez. done.
Qed.

Lemma binary_normalize_nonzero m e sz s' :
  0 < m → -1074 ≤ e → binary_normalize prec emax m e sz ≠ S754_zero s'.
Proof.
  intros Hm He. destruct m as [|m|m]; [lia| |lia]. cbn [binary_normalize].
  destruct (binary_round_spec false m e) as (mz & ez & Hez & Hmz & ->).
  apply binary_round_aux_nonzero; [lia|].
  rewrite fexp_eq in Hez. lia.
Qed.

(** Rounding a mantissa of at least 53 digits whose value is at least 2. *)
Lemma binary_round_aux_normal s m e l :
  0 < m → 53 ≤ Zdigits2 m → 2 ≤ Zdigits2 m + e →
  binary_round_aux prec emax s m e l = S754_infinity s ∨
  ∃ mm ee, binary_round_aux prec emax s m e l = S754_finite s mm ee ∧
           2 ^ 52 ≤ Z.pos mm < 2 ^ 53 ∧ -51 ≤ ee ≤ 971.
Proof.
  intros Hm Hd Hmag.
  destruct (binary_round_aux_spec s m e l ltac:(lia)) as (r & Hr & ->).
  destruct (Zdigits2_bounds m Hm) as [_ Hb].
  assert (shift_of m e = Zdigits2 m - 53) as Hn
    by (unfold shift_of; rewrite fexp_eq; lia).
  rewrite Hn in *.
  pose proof (div_pow_bounds m (Zdigits2 m - 1) (Zdigits2 m) (Zdigits2 m - 53)
                ltac:(lia) ltac:(lia) Hb) as Hm1.
  replace (Zdigits2 m - 1 - (Zdigits2 m - 53)) with 52 in Hm1 by lia.
  replace (Zdigits2 m - (Zdigits2 m - 53)) with 53 in Hm1 by lia.
  set (m1 := m `div` 2 ^ (Zdigits2 m - 53)) in *.
  set (e1 := e + (Zdigits2 m - 53)) in *.
  assert (-51 ≤ e1) as He1 by lia.
  destruct (decide (r < 2 ^ 53)) as [Hlt|Hge].
  - assert (Zdigits2 r = 53) as Hdr by (apply Zdigits2_unique; lia).
    assert (shift_of r e1 = 0) as ->
      by (unfold shift_of; rewrite fexp_eq, Hdr; lia).
    rewrite Z.div_1_r, Z.add_0_r.
    destruct r as [|mm|mm]; [lia| |lia].
    destruct (e1 <=? 971) eqn:E; [|by left].
    right. exists mm, e1. apply Z.leb_le in E. split; [done|lia].
  - assert (r = 2 ^ 53) as -> by lia.
    assert (shift_of (2 ^ 53) e1 = 1) as ->
      by (unfold shift_of; rewrite fexp_eq;
          change (Zdigits2 (2 ^ 53)) with 54; lia).
    change (2 ^ 53 `div` 2 ^ 1) with (Z.pos 4503599627370496).
    cbv iota beta.
    destruct (e1 + 1 <=? 971) eqn:E; [|by left].
    right. exists 4503599627370496%positive, (e1 + 1).
    apply Z.leb_le in E. split; [done|]. split; [|lia].
    change (Z.pos 4503599627370496) with (2 ^ 52). lia.
Qed.

Lemma float_of_Z_spec p :
  2 ≤ p →
  Prim2SF (float_of_Z p) = S754_infinity false ∨
  ∃ my ey, Prim2SF (float_of_Z p) = S754_finite false my ey ∧
           2 ^ 52 ≤ Z.pos my < 2 ^ 53 ∧ -51 ≤ ey.
Proof.
  intros Hp. unfold float_of_Z.
  destruct p as [|p|p]; [lia| |lia]. cbn [binary_normalize].
  destruct (binary_round_spec false p 0) as (mz & ez & Hez & Hmz & ->).
  destruct (digits2_pos_bounds p) as [Hlo Hhi].
  set (d := Z.pos (digits2_pos p)) in *.
  assert (2 ≤ d) as Hd.
  { change 2 with (1 + 1) at 1. apply (Zdigits2_ge (Z.pos p) (1 + 1)); [|lia].
    change (2 ^ (1 + 1 - 1)) with 2. lia. }
  rewrite fexp_eq, Z.add_0_r in Hez.
  assert (ez = Z.min 0 (d - 53)) as Hez' by lia. clear Hez.
  assert (0 < 2 ^ (0 - ez)) as Hpow by (apply Z.pow_pos_nonneg; lia).
  assert (Zdigits2 (Z.pos mz) = d - ez) as Hdz.
  { apply Zdigits2_unique; [lia|]. rewrite Hmz.
    replace (d - ez - 1) with (d - 1 + (0 - ez)) by lia.
    replace (d - ez) with (d + (0 - ez)) by lia.
    rewrite !Z.pow_add_r by lia. nia. }
  destruct (binary_round_aux_normal false (Z.pos mz) ez loc_Exact)
    as [E|(mm & ee & E & Hmm & Hee)]; [lia|lia|lia| |]; rewrite E.
  - left. by apply Prim2SF_SF2Prim.
  - right. exists mm, ee. split; [|split; [done|lia]].
    apply Prim2SF_SF2Prim. cbn [valid_binary]. unfold bounded.
    apply andb_true_iff. split.
    + unfold canonical_mantissa. apply Z.eqb_eq. rewrite fexp_eq.
      assert (Z.pos (digits2_pos mm) = 53) as ->
        by (apply (Zdigits2_unique (Z.pos mm)); lia).
      lia.
    + apply Z.leb_le. change (emax - prec) with 971. lia.
Qed.

Lemma Prim2SF_one : Prim2SF 1%float = S754_finite false 4503599627370496 (-52).
Proof. reflexivity. Qed.

Lemma float_of_Z_one : float_of_Z 1 = 1%float.
Proof. reflexivity. Qed.

Lemma SFdiv_core_recip my ey :
  2 ^ 52 ≤ Z.pos my < 2 ^ 53 → -51 ≤ ey →
  ∃ q e' l,
    SFdiv_core_binary prec emax 4503599627370496 (-52) (Z.pos my) ey
    = (q, e', l) ∧
    0 ≤ q ≤ 2 ^ (- e' - 1) ∧ e' ≤ -53.
Proof.
  intros Hmy Hey. unfold SFdiv_core_binary.
  assert (Zdigits2 (Z.pos my) = 53) as ->
    by (apply Zdigits2_unique; lia).
  change (Zdigits2 4503599627370496) with 53.
  rewrite fexp_eq.
  set (e' := Z.min (Z.max (53 + -52 - (53 + ey) - 53) (-1074)) (-52 - ey)).
  set (s := -52 - ey - e').
  set (m' := match s with
             | 0 => 4503599627370496
             | Z.pos _ => Z.shiftl 4503599627370496 s
             | Z.neg _ => 0
             end).
  assert (0 ≤ s ≤ - e' - 1) as Hs by lia.
  assert (m' = 2 ^ 52 * 2 ^ s) as Hm'.
  { subst m'. destruct s as [|s'|s'] eqn:Es; [reflexivity| |lia].
    rewrite Z.shiftl_mul_pow2 by lia. reflexivity. }
  destruct (Z.div_eucl m' (Z.pos my)) as [q r] eqn:E.
  assert (q = m' `div` Z.pos my) as Hq by (unfold Z.div; by rewrite E).
  exists q, e', (new_location (Z.pos my) r). split; [reflexivity|].
  split; [|lia].
  assert (0 < 2 ^ s) by (apply Z.pow_pos_nonneg; lia).
  assert (2 ^ s ≤ 2 ^ (- e' - 1)) by (apply Z.pow_le_mono_r; lia).
  assert (q ≤ 2 ^ s) by (subst q; apply Z.div_le_upper_bound; nia).
  assert (0 ≤ q) by (subst q; apply Z.div_pos; nia).
  lia.
Qed.

Lemma valid_binary_bounds s m e :
  valid_binary (S754_finite s m e) = true → Z.pos m < 2 ^ 53 ∧ -1074 ≤ e.
Proof.
  cbn [valid_binary]. unfold bounded, canonical_mantissa.
  intros [H _]%andb_true_iff. apply Z.eqb_eq in H. rewrite fexp_eq in H.
  destruct (digits2_pos_bounds m) as [_ Hhi].
  assert (2 ^ Z.pos (digits2_pos m) ≤ 2 ^ 53)
    by (apply Z.pow_le_mono_r; lia).
  lia.
Qed.

Lemma SFsub_one_nonzero x s' :
  valid_binary x = true →
  (∀ s m e, x = S754_finite s m e → e ≤ -53) →
  SFsub prec emax (S754_finite false 4503599627370496 (-52)) x
  ≠ S754_zero s'.
Proof.
  intros Hv He. destruct x as [s| s| |s m e]; cbn [SFsub]; try discriminate.
  specialize (He s m e eq_refl).
  destruct (valid_binary_bounds s m e Hv) as [Hm Hlo].
  cbv zeta.
  destruct (shl_align_spec 4503599627370496 (-52) (Z.min (-52) e)) as [_ H1].
  destruct (shl_align_spec m e (Z.min (-52) e)) as [_ H2].
  rewrite H1, H2.
  replace (Z.min (-52) e) with e by lia.
  replace (Z.min (-52) e) with e by lia.
  replace (e - Z.min e e) with 0 by lia.
  replace (-52 - Z.min (-52) e) with (-52 - e) by lia.
  assert (2 ^ 53 ≤ 2 ^ 52 * 2 ^ (-52 - e)) as Hbig.
  { rewrite <- Z.pow_add_r by lia. apply Z.pow_le_mono_r; lia. }
  change (Z.pos 4503599627370496) with (2 ^ 52).
  apply binary_normalize_nonzero; [|lia].
  destruct s; cbn [cond_Zopp]; lia.
Qed.

Lemma SFeqb_nonzero x :
  (∀ s, x ≠ S754_zero s) → SFeqb x (S754_zero false) = false.
Proof.
  intros H. destruct x as [s|s| |s m e]; try reflexivity.
  - by destruct (H s).
  - by destruct s.
  - by destruct s.
Qed.

Lemma one_minus_reciprocal_nonzero p :
  2 ≤ p →
  PrimFloat.eqb
    (PrimFloat.sub 1 (PrimFloat.div (float_of_Z 1) (float_of_Z p))) 0
  = false.
Proof.
  intros Hp.
  rewrite FloatAxioms.eqb_spec, FloatAxioms.sub_spec, Prim2SF_one.
  change (Prim2SF 0) with (S754_zero false).
  apply SFeqb_nonzero. intros s'. apply SFsub_one_nonzero.
  { apply Prim2SF_valid. }
  rewrite FloatAxioms.div_spec, float_of_Z_one, Prim2SF_one.
  destruct (float_of_Z_spec p Hp) as [->|(my & ey & -> & Hmy & Hey)].
  { discriminate. }
  intros s m e. cbn [SFdiv SF64div xorb].
  destruct (SFdiv_core_recip my ey Hmy Hey) as (q & e' & l & -> & Hq & He').
  apply binary_round_aux_exponent; done.
Qed.

(** ** The Euler product loop *)

Lemma compute_CQ_loop primes C_Q n_shield n_split :
  (st ← for_each primes CQ_step (C_Q, n_shield, n_split); Ok st.1.1)
  = left_fold_product C_Q primes.
Proof.
  revert C_Q n_shield n_split.
  induction primes as [|p primes IH]; intros C_Q n_shield n_split; [done|].
  simpl. destruct (euler_factor (omega_Q p) p) as [factor|e]; [|done].
  simpl. destruct (omega_Q p =? 0); apply IH.
Qed.

(** No prime makes the division of the local factor raise. *)
Lemma euler_factor_total p :
  2 ≤ p → euler_factor (omega_Q p) p = Ok (local_factor p).
Proof.
  intros Hp. unfold euler_factor, int_truediv, float_truediv, local_factor.
  destruct (Z.eqb_spec p 0) as [->|_]; [lia|].
  change (Ok ?x ≫= ?f) with (f x). cbv beta.
  change (Ok ?x ≫= ?f) with (f x). cbv beta.
  by rewrite one_minus_reciprocal_nonzero.
Qed.

Lemma left_fold_product_total primes acc :
  (∀ p, p ∈ primes → 2 ≤ p) →
  left_fold_product acc primes
  = Ok (fold_left (λ acc p, PrimFloat.mul acc (local_factor p)) primes acc).
Proof.
  revert acc. induction primes as [|p primes IH]; intros acc Hge; [done|].
  cbn [left_fold_product fold_left].
  rewrite (euler_factor_total p) by (apply Hge, list_elem_of_here).
  change (Ok ?x ≫= ?f) with (f x). cbv beta.
  apply IH. intros q Hq. by apply Hge, list_elem_of_further.
Qed.

Lemma CQ_loop_total primes st :
  (∀ p, p ∈ primes → 2 ≤ p) →
  ∃ C_Q n_shield n_split,
    for_each primes CQ_step st = Ok (C_Q, n_shield, n_split) ∧
    C_Q = fold_left (λ acc p, PrimFloat.mul acc (local_factor p))
            primes st.1.1.
Proof.
  intros Hge. destruct st as [[C s] t].
  pose proof (compute_CQ_loop primes C s t) as Hloop.
  rewrite (left_fold_product_total primes C Hge) in Hloop.
  destruct (for_each primes CQ_step (C, s, t)) as [[[C' s'] t']|e];
    [|discriminate Hloop].
  exists C', s', t'. split; [reflexivity|].
  cbn in Hloop. by injection Hloop.
Qed.

(** ** What a passing check establishes *)

Lemma verify_mod47_sound n_max :
  verify_mod47 n_max = true → ∀ n, 0 ≤ n ≤ n_max → q_mod n 47 = 1.
Proof.
  unfold verify_mod47. rewrite scan_true. intros Hrun n Hn.
  specialize (Hrun n). rewrite elem_of_range in Hrun.
  specialize (Hrun ltac:(lia)).
  apply negb_false_iff in Hrun. by apply Z.eqb_eq.
Qed.

Lemma verify_no_small_divisors_sound n_max :
  verify_no_small_divisors n_max = Ok true →
  ∀ n p, 2 ≤ n ≤ n_max → Z.prime p → p ≤ 282 → q_mod n p ≠ 0.
Proof.
  unfold verify_no_small_divisors.
  destruct (sieve_primes 282) as [small_primes|e] eqn:Hsieve;
    [|intros Hrun; discriminate Hrun].
  change (Ok ?l ≫= ?f) with (f l). cbv beta.
  intros Hrun n p Hn Hp Hle. injection Hrun as Hrun.
  rewrite scan_true in Hrun.
  specialize (Hrun n). rewrite elem_of_range in Hrun.
  specialize (Hrun ltac:(lia)).
  apply negb_false_iff in Hrun. rewrite scan_true in Hrun.
  apply Z.eqb_neq, Hrun.
  exact (proj2 (sieve_primes_elem 282 _ p Hsieve) (conj Hp Hle)).
Qed.

Lemma verify_no_small_divisors_fast n_max small_primes :
  sieve_primes 282 = Ok small_primes → n_max + 1 < wB →
  verify_no_small_divisors n_max
  = Ok (Fast.no_small_divisors small_primes n_max).
Proof.
  intros Hsieve Hn. unfold verify_no_small_divisors. rewrite Hsieve.
  change (Ok ?l ≫= ?f) with (f l). cbv beta. f_equal.
  apply no_small_divisors_fast; [exact Hn|]. intros p Hp.
  destruct (proj1 (sieve_primes_elem 282 _ p Hsieve) Hp) as [Hprime Hle].
  pose proof (Z.prime_ge_2 _ Hprime). clear Hsieve. lia.
Qed.

Lemma verify_smallest_bad_prime_run primes :
  sieve_primes 300 = Ok primes → first_bad_prime_is_283 primes = true →
  verify_smallest_bad_prime = Ok true.
Proof.
  intros Hsieve Hfirst. unfold verify_smallest_bad_prime. rewrite Hsieve.
  change (Ok ?l ≫= ?f) with (f l). cbv beta. rewrite Hfirst. reflexivity.
Qed.

Lemma compute_sieve_weight_run z W_Q W_generic :
  sieve_weights z = Ok (W_Q, W_generic) → compute_sieve_weight z = Ok W_Q.
Proof. intros Hrun. unfold compute_sieve_weight. rewrite Hrun. reflexivity. Qed.

(** * The claims *)

(** C1. For every prime [p <= 6299] the closed-form rule and the residue
    scan agree, [omega_theory p = omega_brute_force p], and
    [verify_omega(6299)] returns [True]. *)
Theorem omega_theory_agrees_with_brute_force :
  (∀ p, Z.prime p → p ≤ 6299 → omega_theory p = omega_brute_force p) ∧
  verify_omega 6299 = Ok true.
Proof.
  assert (∀ p, Z.prime p → p ≤ 6299 → omega_theory p = omega_brute_force p)
    as Hagree.
  { intros p Hp Hle. pose proof (Z.prime_ge_2 _ Hp).
    rewrite omega_brute_force_fast by lia. symmetry. apply Z.eqb_eq.
    by apply (sieve_primes_forallb 6299 primes_6299
                (λ p, Fast.omega_brute_force p =? omega_theory p) p
                sieve_primes_6299 fast_omega_agree_6299). }
  split; [done|].
  apply (verify_omega_run 6299 primes_6299 sieve_primes_6299).
  intros p Hp.
  apply (sieve_primes_elem 6299 _ p sieve_primes_6299) in Hp as [Hp Hle].
  symmetry. by apply Hagree.
Qed.

Lemma omega_theory_agrees_with_brute_force_witness :
  omega_theory 283 = omega_brute_force 283.
Proof.
  apply (proj1 omega_theory_agrees_with_brute_force 283);
    [exact prime_283 | lia].
Defined.

(** C2. For every [n] in [0, 100000] the residue
    [(n^47 - ((n-1) mod 47)^47) mod 47] computed by the script is 1, and
    [verify_mod47(100000)] returns [True]. *)
Theorem Q_is_1_mod_47 :
  (∀ n, 0 ≤ n ≤ 100000 → q_mod n 47 = 1) ∧ verify_mod47 100000 = true.
Proof.
  assert (verify_mod47 100000 = true) as Hrun.
  { rewrite verify_mod47_fast by (rewrite wB_value; lia).
    exact fast_verify_mod47_100000. }
  split; [|exact Hrun]. intros n Hn.
  exact (verify_mod47_sound 100000 Hrun n Hn).
Qed.

Lemma Q_is_1_mod_47_witness : q_mod 1000 47 = 1.
Proof. apply (proj1 Q_is_1_mod_47 1000). lia. Defined.

(** C3. For every [n] in [2, 10000] and every prime [p < 283] the residue
    [(n^47 - ((n-1) mod p)^47) mod p] is nonzero, and
    [verify_no_small_divisors(10000)] returns [True]. *)
Theorem no_small_prime_divides_Q :
  (∀ n p, 2 ≤ n ≤ 10000 → Z.prime p → p < 283 → q_mod n p ≠ 0) ∧
  verify_no_small_divisors 10000 = Ok true.
Proof.
  assert (verify_no_small_divisors 10000 = Ok true) as Hrun.
  { rewrite (verify_no_small_divisors_fast 10000 primes_282).
    - rewrite fast_no_small_divisors_10000. reflexivity.
    - exact sieve_primes_282.
    - rewrite wB_value. lia. }
  split; [|exact Hrun]. intros n p Hn Hp Hlt.
  apply (verify_no_small_divisors_sound 10000 Hrun n p Hn Hp). lia.
Qed.

Lemma no_small_prime_divides_Q_witness : q_mod 5000 281 ≠ 0.
Proof.
  apply (proj1 no_small_prime_divides_Q 5000 281);
    [lia | exact prime_281 | lia].
Defined.

(** C4. Scanning the primes in ascending order, the first prime [p] with
    [(p - 1) mod 47 = 0] is 283: 283 is such a prime, no smaller prime is,
    and [verify_smallest_bad_prime()] returns [True]. *)
Theorem smallest_bad_prime_is_283 :
  verify_smallest_bad_prime = Ok true ∧
  Z.prime 283 ∧ (283 - 1) `mod` 47 = 0 ∧
  ∀ p, Z.prime p → (p - 1) `mod` 47 = 0 → 283 ≤ p.
Proof.
  split; [|split; [exact prime_283|split; [done|]]].
  - exact (verify_smallest_bad_prime_run primes_300 sieve_primes_300
             first_bad_prime_300).
  - intros p Hp Hmod. destruct (Z.le_gt_cases 283 p) as [|Hlt]; [done|].
    pose proof (sieve_primes_forallb 300 primes_300 _ p sieve_primes_300
                  no_bad_prime_below_283 Hp ltac:(lia)) as Hcheck.
    cbv beta in Hcheck. rewrite Hmod in Hcheck. simpl in Hcheck.
    by apply Z.leb_le.
Qed.

Lemma smallest_bad_prime_is_283_witness : 283 ≤ 283.
Proof.
  apply (proj2 (proj2 (proj2 smallest_bad_prime_is_283)) 283);
    [exact prime_283 | reflexivity].
Defined.

(** C5. The boundary inputs of [sieve_primes]: at [n = 1] it returns the
    empty list and at [n = 2] the list [[2]], but at [n = 0], and at every
    [n <= 0], the initialisation [is_prime[0] = is_prime[1] = False] raises
    [IndexError] instead of returning the empty list. *)
Theorem sieve_primes_boundaries :
  (∀ n, n ≤ 0 → sieve_primes n = Raise IndexError) ∧
  sieve_primes 1 = Ok [] ∧ sieve_primes 2 = Ok [2].
Proof.
  split; [exact sieve_primes_raise|]. split; vm_compute; reflexivity.
Qed.

Lemma sieve_primes_boundaries_witness : sieve_primes 0 = Raise IndexError.
Proof. apply (proj1 sieve_primes_boundaries 0). lia. Defined.

(** C6, as the claim states it, fails: [compute_CQ] does not report an
    error on every bound below 2. *)
Lemma compute_CQ_accepts_bound_1 :
  ¬ ∀ p_max, p_max < 2 → ∃ e, compute_CQ p_max = Raise e.
Proof.
  intros Hraise. destruct (Hraise 1 ltac:(lia)) as [e He].
  vm_compute in He. discriminate.
Qed.

(** C6, amended. No entry point validates its bound: at the out-of-domain
    bound 1 the sieve returns the empty list, [compute_CQ] returns the
    empty product 1.0 and [compute_sieve_weight] returns 1.0, none of them
    reporting an error. *)
Theorem no_input_domain_check_at_1 :
  sieve_primes 1 = Ok [] ∧ compute_CQ 1 = Ok 1%float ∧
  compute_sieve_weight 1 = Ok 1%float.
Proof. repeat split; vm_compute; reflexivity. Qed.

(** C7. For every [n >= 1], [sieve_primes n] returns a strictly ascending,
    duplicate-free list whose elements are exactly the primes in [2, n],
    each of which passes the trial-division check; [sieve_primes 10] is
    [[2; 3; 5; 7]].  At [n = 0] the call raises [IndexError]. *)
Theorem sieve_primes_correct :
  (∀ n, 1 ≤ n →
     ∃ l, sieve_primes n = Ok l ∧ StronglySorted Z.lt l ∧ NoDup l ∧
          (∀ p, p ∈ l ↔ Z.prime p ∧ 2 ≤ p ≤ n) ∧
          (∀ p, p ∈ l → trial_prime p)) ∧
  sieve_primes 10 = Ok [2; 3; 5; 7] ∧
  sieve_primes 0 = Raise IndexError.
Proof.
  split; [|split; vm_compute; reflexivity].
  intros n Hn. destruct (sieve_primes_spec n Hn) as (l & Hl & Hsorted & Hmem).
  exists l. split; [done|]. split; [done|].
  split; [by apply StronglySorted_lt_NoDup|]. split.
  - intros p. rewrite Hmem. split.
    + intros [Hp Hle]. pose proof (Z.prime_ge_2 _ Hp). split; [done|lia].
    + intros [Hp Hle]. split; [done|lia].
  - intros p Hp. apply prime_trial. by apply Hmem.
Qed.

Lemma sieve_primes_correct_witness :
  ∃ l, sieve_primes 30 = Ok l ∧ StronglySorted Z.lt l ∧ NoDup l ∧
       (∀ p, p ∈ l ↔ Z.prime p ∧ 2 ≤ p ≤ 30) ∧
       (∀ p, p ∈ l → trial_prime p).
Proof. apply (proj1 sieve_primes_correct 30). lia. Defined.

(** C8. For every [p_max >= 2], [compute_CQ p_max] returns the left fold,
    over the primes up to [p_max] in ascending order, of multiplication by
    [(1 - omega_Q(p)/p) / (1 - 1/p)], starting from 1.0: the loop never
    raises, and its result is the product [euler_product] that is written
    from the factor itself. *)
Theorem compute_CQ_is_left_fold :
  ∀ p_max, 2 ≤ p_max →
    ∃ primes, StronglySorted Z.lt primes ∧
              (∀ p, p ∈ primes ↔ Z.prime p ∧ p ≤ p_max) ∧
              compute_CQ p_max = Ok (euler_product primes).
Proof.
  intros p_max Hp.
  destruct (sieve_primes_spec p_max ltac:(lia)) as (l & Hl & Hsorted & Hmem).
  exists l. split; [done|]. split; [done|].
  unfold compute_CQ. rewrite Hl.
  change (Ok ?x ≫= ?f) with (f x). cbv beta.
  rewrite compute_CQ_loop. apply left_fold_product_total.
  intros p [Hprime _]%Hmem. by apply Z.prime_ge_2.
Qed.

Lemma compute_CQ_is_left_fold_witness :
  ∃ primes, StronglySorted Z.lt primes ∧
            (∀ p, p ∈ primes ↔ Z.prime p ∧ p ≤ 100) ∧
            compute_CQ 100 = Ok (euler_product primes).
Proof. apply (compute_CQ_is_left_fold 100). lia. Defined.


(** C10. The classifier [omega_Q] of [compute_bateman_horn.py] and the
    classifier [omega_theory] of [verify_local_obstruction.py] return the
    same value on every integer. *)
Theorem omega_Q_eq_omega_theory : ∀ p, omega_Q p = omega_theory p.
Proof. intros p. unfold omega_Q, omega_theory. reflexivity. Qed.

(** * Further properties *)

(** ** Beyond the bounded checks

    The power is kept folded in this part: the statements are about all
    integers and nothing is evaluated at a symbolic base. *)

#[local] Opaque Z.pow.

Lemma q_mod_Q n p : q_mod n p = Q n `mod` p.
Proof.
  unfold q_mod, pow3, Q. rewrite (Z.mod_pow_l (n - 1)).
  symmetry. apply Zminus_mod.
Qed.

Lemma q_mod_periodic n p : q_mod (n `mod` p) p = q_mod n p.
Proof.
  unfold q_mod, pow3. rewrite (Z.mod_pow_l n), (Zminus_mod_idemp_l n 1 p).
  reflexivity.
Qed.

(** X1. The residue the scripts compute is the residue of [Q(n)]: it is 0
    exactly when the modulus divides [Q(n)], and it depends on [n] only
    modulo [p]. *)
Theorem q_mod_is_residue_of_Q :
  (∀ n p, q_mod n p = Q n `mod` p) ∧
  (∀ n p, p ≠ 0 → q_mod n p = 0 ↔ (p | Q n)) ∧
  (∀ n k p, q_mod (n + k * p) p = q_mod n p).
Proof.
  split; [exact q_mod_Q|]. split.
  - intros n p Hp. rewrite q_mod_Q. apply Z.mod_divide. exact Hp.
  - intros n k p. rewrite <- (q_mod_periodic (n + k * p)), <- (q_mod_periodic n).
    destruct (decide (p = 0)) as [->|Hp].
    + rewrite Z.mul_0_r, Z.add_0_r. reflexivity.
    + rewrite Z.mod_add by exact Hp. reflexivity.
Qed.

Lemma q_mod_is_residue_of_Q_witness : q_mod 5 283 = 0 ↔ (283 | Q 5).
Proof. apply (proj1 (proj2 q_mod_is_residue_of_Q) 5 283). lia. Defined.

Lemma q_mod_47_residues :
  forallb (λ r, q_mod r 47 =? 1) (seqZ 0 47) = true.
Proof. vm_cast_no_check (eq_refl true). Qed.

Lemma q_mod_47 n : q_mod n 47 = 1.
Proof.
  rewrite <- q_mod_periodic. apply Z.eqb_eq.
  pose proof q_mod_47_residues as Hall. rewrite forallb_forall in Hall.
  apply (Hall (n `mod` 47)). apply list_elem_of_In, elem_of_seqZ.
  pose proof (Z.mod_pos_bound n 47 ltac:(lia)). lia.
Qed.

Lemma verify_mod47_true n_max : verify_mod47 n_max = true.
Proof.
  unfold verify_mod47. apply scan_true. intros n _.
  rewrite q_mod_47. reflexivity.
Qed.

(** X2. [Q(n)] is 1 modulo 47 for every integer [n], so [verify_mod47]
    returns [True] whatever its bound. *)
Theorem verify_mod47_always_passes :
  (∀ n, Q n `mod` 47 = 1) ∧ (∀ n_max, verify_mod47 n_max = true).
Proof.
  split.
  - intros n. rewrite <- q_mod_Q. apply q_mod_47.
  - exact verify_mod47_true.
Qed.

Lemma count_fold (f : Z → bool) xs c :
  fold_left (λ count n, if f n then count + 1 else count) xs c
  = c + Z.of_nat (length (filter (λ n, f n = true) xs)).
Proof.
  revert c. induction xs as [|x xs IH]; intros c; [simpl; lia|].
  simpl. rewrite IH, filter_cons.
  destruct (f x); destruct (decide _) as [Hd|Hd];
    try discriminate Hd; try (destruct Hd; reflexivity); simpl; lia.
Qed.

Lemma omega_brute_force_count p :
  omega_brute_force p
  = Z.of_nat (length (filter (λ n, q_mod n p = 0) (range 0 p))).
Proof.
  unfold omega_brute_force.
  rewrite (count_fold (λ n, q_mod n p =? 0)), Z.add_0_l. do 2 f_equal.
  apply list_filter_iff. intros n. apply Z.eqb_eq.
Qed.

Lemma omega_brute_force_zero p :
  omega_brute_force p = 0 ↔ ∀ n, 0 ≤ n < p → q_mod n p ≠ 0.
Proof.
  rewrite omega_brute_force_count. split.
  - intros Hzero n Hn Hroot.
    assert (n ∈ filter (λ n, q_mod n p = 0) (range 0 p)) as Hin.
    { apply list_elem_of_filter. split; [exact Hroot|].
      apply elem_of_range. exact Hn. }
    destruct (filter _ _) as [|x xs]; [by apply elem_of_nil in Hin|].
    simpl in Hzero. lia.
  - intros Hnone.
    destruct (filter _ _) as [|x xs] eqn:Hf; [reflexivity|].
    assert (x ∈ filter (λ n, q_mod n p = 0) (range 0 p)) as Hin
      by (rewrite Hf; apply list_elem_of_here).
    apply list_elem_of_filter in Hin as [Hroot Hx].
    apply elem_of_range in Hx. destruct (Hnone x Hx Hroot).
Qed.

(** X3. [omega_brute_force p] is the number of residues [n] in [0, p) at
    which the residue of [Q(n)] is 0; it lies between 0 and [p] (it is 0
    for [p <= 0]), and it is 0 exactly when no residue is a root. *)
Theorem omega_brute_force_counts_roots :
  (∀ p, omega_brute_force p
        = Z.of_nat (length (filter (λ n, q_mod n p = 0) (range 0 p)))) ∧
  (∀ p, 0 ≤ omega_brute_force p ≤ Z.max 0 p) ∧
  (∀ p, omega_brute_force p = 0 ↔ ∀ n, 0 ≤ n < p → q_mod n p ≠ 0).
Proof.
  split; [exact omega_brute_force_count|].
  split; [|exact omega_brute_force_zero].
  intros p. rewrite omega_brute_force_count.
  pose proof (length_filter (λ n, q_mod n p = 0) (range 0 p)) as Hlen.
  unfold range in Hlen at 2. rewrite length_seqZ in Hlen. lia.
Qed.

Lemma mod_47_pred p : (p - 1) `mod` 47 = 0 ↔ p `mod` 47 = 1.
Proof.
  pose proof (Z.div_mod p 47 ltac:(lia)).
  pose proof (Z.div_mod (p - 1) 47 ltac:(lia)).
  pose proof (Z.mod_pos_bound p 47 ltac:(lia)).
  pose proof (Z.mod_pos_bound (p - 1) 47 ltac:(lia)).
  lia.
Qed.

Lemma omega_theory_mod_47 p :
  (omega_theory p = 46 ↔ p `mod` 47 = 1) ∧
  (omega_theory p = 0 ↔ p `mod` 47 ≠ 1) ∧
  omega_theory p = (if (p - 1) `mod` 47 =? 0 then 46 else 0).
Proof.
  rewrite <- mod_47_pred. unfold omega_theory.
  destruct (Z.eqb_spec p 47) as [->|Hne].
  { vm_compute. repeat split; intros; congruence. }
  destruct (Z.eqb_spec ((p - 1) `mod` 47) 0) as [Hmod|Hmod].
  - split; [split; intros; [assumption|reflexivity]|].
    split; [split; intros; [discriminate|contradiction]|reflexivity].
  - split; [split; intros; [discriminate|contradiction]|].
    split; [split; intros; [assumption|reflexivity]|reflexivity].
Qed.

(** X4. The closed-form rule returns 46 exactly on [p = 1 (mod 47)] and 0
    elsewhere; the test [p == 47] never changes its result. *)
Theorem omega_theory_classifies_mod_47 :
  ∀ p, (omega_theory p = 46 ↔ p `mod` 47 = 1) ∧
       (omega_theory p = 0 ↔ p `mod` 47 ≠ 1) ∧
       omega_theory p = (if (p - 1) `mod` 47 =? 0 then 46 else 0).
Proof. exact omega_theory_mod_47. Qed.

Lemma omega_agree_upto_6299 p :
  Z.prime p → p ≤ 6299 → omega_brute_force p = omega_theory p.
Proof.
  intros Hp Hle. pose proof (Z.prime_ge_2 _ Hp).
  rewrite omega_brute_force_fast by lia. apply Z.eqb_eq.
  exact (sieve_primes_forallb 6299 primes_6299
           (λ p, Fast.omega_brute_force p =? omega_theory p) p
           sieve_primes_6299 fast_omega_agree_6299 Hp Hle).
Qed.

Lemma omega_theory_below_283 p : Z.prime p → p < 283 → omega_theory p = 0.
Proof.
  intros Hp Hlt.
  pose proof (sieve_primes_forallb 300 primes_300 _ p sieve_primes_300
                no_bad_prime_below_283 Hp ltac:(lia)) as Hcheck.
  cbv beta in Hcheck.
  destruct (omega_theory_mod_47 p) as (_ & _ & ->).
  destruct ((p - 1) `mod` 47 =? 0); [|reflexivity].
  simpl in Hcheck. apply Z.leb_le in Hcheck. lia.
Qed.

Lemma no_small_prime_root n p : Z.prime p → p < 283 → q_mod n p ≠ 0.
Proof.
  intros Hp Hlt. pose proof (Z.prime_ge_2 _ Hp).
  rewrite <- q_mod_periodic.
  apply (proj1 (omega_brute_force_zero p)).
  - rewrite omega_agree_upto_6299 by (assumption || lia).
    apply omega_theory_below_283; assumption.
  - apply Z.mod_pos_bound. lia.
Qed.

Lemma verify_no_small_divisors_true n_max :
  verify_no_small_divisors n_max = Ok true.
Proof.
  unfold verify_no_small_divisors.
  rewrite sieve_primes_282. change (Ok ?l ≫= ?f) with (f l). cbv beta.
  f_equal. apply scan_true. intros n _. apply negb_false_iff.
  apply scan_true. intros p Hp. apply Z.eqb_neq.
  destruct (proj1 (sieve_primes_elem 282 _ p sieve_primes_282) Hp)
    as [Hprime Hle].
  apply no_small_prime_root; [exact Hprime|lia].
Qed.

(** X5. No prime below 283 divides [Q(n)] for any integer [n], so
    [verify_no_small_divisors] returns [True] whatever its bound. *)
Theorem verify_no_small_divisors_always_passes :
  (∀ n p, Z.prime p → p < 283 → ¬ (p | Q n)) ∧
  (∀ n_max, verify_no_small_divisors n_max = Ok true).
Proof.
  split.
  - intros n p Hp Hlt Hdiv. pose proof (Z.prime_ge_2 _ Hp).
    apply (no_small_prime_root n p Hp Hlt).
    rewrite q_mod_Q. apply Z.mod_divide; [lia|exact Hdiv].
  - exact verify_no_small_divisors_true.
Qed.

Lemma verify_no_small_divisors_always_passes_witness : ¬ (281 | Q 12345).
Proof.
  apply (proj1 verify_no_small_divisors_always_passes 12345 281);
    [exact prime_281 | lia].
Defined.

Lemma verify_omega_upto_6299 p_max :
  1 ≤ p_max ≤ 6299 → verify_omega p_max = Ok true.
Proof.
  intros Hp.
  destruct (sieve_primes_spec p_max ltac:(lia)) as (l & Hl & _ & Hmem).
  apply (verify_omega_run p_max l Hl). intros p Hin.
  apply Hmem in Hin as [Hprime Hle].
  apply omega_agree_upto_6299; [exact Hprime|lia].
Qed.

(** X6. [verify_omega] returns [True] at every bound from 1 to 6299, and
    raises [IndexError], like the sieve it calls, at every bound below 1. *)
Theorem verify_omega_bounds :
  (∀ p_max, 1 ≤ p_max ≤ 6299 → verify_omega p_max = Ok true) ∧
  (∀ p_max, p_max ≤ 0 → verify_omega p_max = Raise IndexError).
Proof.
  split.
  - exact verify_omega_upto_6299.
  - intros p_max Hp. unfold verify_omega.
    rewrite sieve_primes_raise by exact Hp. reflexivity.
Qed.

Lemma verify_omega_bounds_witness :
  verify_omega 1000 = Ok true ∧ verify_omega 0 = Raise IndexError.
Proof.
  split.
  - apply (proj1 verify_omega_bounds 1000). lia.
  - apply (proj2 verify_omega_bounds 0). lia.
Defined.

(** X7. The sieve at a smaller bound is the sieve at a larger bound cut at
    the smaller bound: for [1 <= n <= m],
    [sieve_primes(n) == [p for p in sieve_primes(m) if p <= n]]. *)
Theorem sieve_primes_restrict :
  ∀ n m l, 1 ≤ n ≤ m → sieve_primes m = Ok l →
           sieve_primes n = Ok (filter (λ p, p ≤ n) l).
Proof.
  intros n m l Hnm Hl.
  destruct (sieve_primes_spec n ltac:(lia)) as (ln & -> & Hsn & Hmn).
  destruct (sieve_primes_spec m ltac:(lia)) as (lm & Hlm & Hsm & Hmm).
  rewrite Hl in Hlm. injection Hlm as <-.
  f_equal. apply StronglySorted_lt_ext.
  - exact Hsn.
  - apply StronglySorted_filter. exact Hsm.
  - intros p. rewrite list_elem_of_filter, Hmn, Hmm. split.
    + intros [Hp Hle]. split; [exact Hle|]. split; [exact Hp|lia].
    + intros [Hle [Hp _]]. split; assumption.
Qed.

Lemma sieve_primes_restrict_witness :
  sieve_primes 282 = Ok (filter (λ p, p ≤ 282) primes_300).
Proof.
  apply (sieve_primes_restrict 282 300 primes_300);
    [lia | exact sieve_primes_300].
Defined.

(** X8. A bound below 1 makes the two entry points of
    [compute_bateman_horn.py] raise the sieve's [IndexError]:
    [compute_CQ] and [compute_sieve_weight] do no work of their own before
    the sieve fails. *)
Theorem entry_points_raise_below_1 :
  ∀ b, b ≤ 0 →
       compute_CQ b = Raise IndexError ∧
       compute_sieve_weight b = Raise IndexError.
Proof.
  intros b Hb.
  unfold compute_CQ, compute_sieve_weight, sieve_weights.
  rewrite sieve_primes_raise by exact Hb. split; reflexivity.
Qed.

Lemma entry_points_raise_below_1_witness :
  compute_CQ 0 = Raise IndexError ∧
  compute_sieve_weight 0 = Raise IndexError.
Proof. apply (entry_points_raise_below_1 0). lia. Defined.

Lemma CQ_loop_counts primes C s t C' s' t' :
  for_each primes CQ_step (C, s, t) = Ok (C', s', t') →
  left_fold_product C primes = Ok C' ∧
  s' + t' = s + t + Z.of_nat (length primes) ∧
  t' = t + Z.of_nat (length (filter (λ p, p `mod` 47 = 1) primes)).
Proof.
  revert C s t. induction primes as [|p primes IH]; intros C s t Hrun.
  { simpl in Hrun. injection Hrun as -> -> ->. simpl. repeat split; lia. }
  simpl in Hrun. simpl left_fold_product.
  destruct (euler_factor (omega_Q p) p) as [factor|e];
    [|discriminate Hrun].
  simpl in Hrun. rewrite filter_cons.
  pose proof (omega_theory_mod_47 p) as (H46 & H0 & _).
  change (omega_theory p) with (omega_Q p) in H46, H0.
  destruct (Z.eqb_spec (omega_Q p) 0) as [Hw|Hw].
  - apply IH in Hrun as (Hfold & Hsum & Hsplit).
    apply H0 in Hw. destruct (decide (p `mod` 47 = 1)); [contradiction|].
    split; [exact Hfold|]. simpl length. lia.
  - apply IH in Hrun as (Hfold & Hsum & Hsplit).
    destruct (decide (p `mod` 47 = 1)) as [Hd|Hd];
      [|apply H0 in Hd; contradiction].
    split; [exact Hfold|]. simpl length. lia.
Qed.

(** X9. When the loop of [compute_CQ] finishes, its two counters add up to
    the number of sieved primes, [n_split] is the number of primes that are
    1 modulo 47, and the product it holds is the value returned. *)
Theorem compute_CQ_counters :
  ∀ p_max primes C_Q n_shield n_split,
    sieve_primes p_max = Ok primes →
    for_each primes CQ_step (1%float, 0, 0) = Ok (C_Q, n_shield, n_split) →
    compute_CQ p_max = Ok C_Q ∧
    n_shield + n_split = Z.of_nat (length primes) ∧
    n_split = Z.of_nat (length (filter (λ p, p `mod` 47 = 1) primes)).
Proof.
  intros p_max primes C_Q n_shield n_split Hsieve Hrun.
  unfold compute_CQ. rewrite Hsieve.
  change (Ok ?l ≫= ?f) with (f l). cbv beta. rewrite Hrun.
  apply CQ_loop_counts in Hrun as (_ & Hsum & Hsplit).
  split; [reflexivity|]. split; lia.
Qed.

Lemma compute_CQ_counters_witness :
  ∃ C_Q n_shield n_split,
    compute_CQ 300 = Ok C_Q ∧
    n_shield + n_split = Z.of_nat (length primes_300) ∧
    n_split = Z.of_nat (length (filter (λ p, p `mod` 47 = 1) primes_300)).
Proof.
  destruct (for_each primes_300 CQ_step (1%float, 0, 0))
    as [[[C_Q n_shield] n_split]|e] eqn:Hrun.
  - exists C_Q, n_shield, n_split.
    exact (compute_CQ_counters 300 primes_300 C_Q n_shield n_split
             sieve_primes_300 Hrun).
  - vm_compute in Hrun. discriminate Hrun.
Defined.

(** ** Trial-division factoring in [count_bad_moduli] *)

Lemma trial_primeb_false m :
  2 ≤ m → trial_primeb m = false → ∃ i, 2 ≤ i ∧ i * i ≤ m ∧ (i | m).
Proof.
  intros Hm Hfalse. unfold trial_primeb in Hfalse.
  destruct (Z.leb_spec 2 m); [|lia]. simpl in Hfalse.
  assert (existsb (λ i, m `mod` i =? 0) (seqZ 2 (Z.sqrt m - 1)) = true)
    as Hex.
  { revert Hfalse. generalize (seqZ 2 (Z.sqrt m - 1)).
    intros l. induction l as [|i l IH]; simpl; [discriminate|].
    destruct (m `mod` i =? 0); simpl; [reflexivity|exact IH]. }
  apply existsb_exists in Hex as (i & Hin & Hmod).
  apply list_elem_of_In, elem_of_seqZ in Hin. apply Z.eqb_eq in Hmod.
  exists i. split; [lia|].
  pose proof (Z.sqrt_spec m ltac:(lia)) as Hsqrt. cbv zeta in Hsqrt.
  split; [nia|]. apply Z.mod_divide; [lia|exact Hmod].
Qed.

Lemma prime_or_divisor m :
  2 ≤ m → Z.prime m ∨ ∃ i, 2 ≤ i ∧ i * i ≤ m ∧ (i | m).
Proof.
  intros Hm. destruct (trial_primeb m) eqn:Htrial.
  - left. by apply trial_primeb_spec.
  - right. by apply trial_primeb_false.
Qed.

Lemma exists_prime_divisor m : 2 ≤ m → ∃ r, Z.prime r ∧ (r | m).
Proof.
  assert (∀ n : nat, ∀ m, 2 ≤ m → (Z.to_nat m < n)%nat →
            ∃ r, Z.prime r ∧ (r | m)) as Hind.
  { intros n. induction n as [|n IH]; intros k Hk Hn; [lia|].
    destruct (prime_or_divisor k Hk) as [Hp|(i & Hi & Hsq & Hdiv)].
    - exists k. split; [exact Hp|apply Z.divide_refl].
    - destruct (IH i Hi ltac:(nia)) as (r & Hr & Hri).
      exists r. split; [exact Hr|]. by apply Z.divide_trans with i. }
  intros Hm. apply (Hind (S (Z.to_nat m)) m Hm). lia.
Qed.

(** A number whose prime factors are all at least [p], with [p * p] above
    it, is 1 or prime. *)
Lemma one_or_prime p temp :
  0 ≤ p → 1 ≤ temp → temp < p * p →
  (∀ r, Z.prime r → (r | temp) → p ≤ r) →
  temp = 1 ∨ Z.prime temp.
Proof.
  intros Hp0 Htemp Hsq Hfactors.
  destruct (decide (temp = 1)) as [|Hne]; [by left|right].
  destruct (prime_or_divisor temp ltac:(lia)) as [Hp|(i & Hi & Hisq & Hdiv)];
    [exact Hp|exfalso].
  destruct (exists_prime_divisor i Hi) as (r & Hr & Hri).
  pose proof (Z.prime_ge_2 _ Hr).
  assert (r ≤ i) by (apply Z.divide_pos_le; [lia|exact Hri]).
  assert (p ≤ r) by (apply Hfactors; [exact Hr|by apply Z.divide_trans with i]).
  nia.
Qed.

Section factoring.
Context (bad_primes_set : gset Z).

Lemma strip_factor_not_bad fuel p temp :
  p ∉ bad_primes_set →
  strip_factor (S fuel) bad_primes_set p temp
  = Some (temp, negb (temp `mod` p =? 0)).
Proof.
  intros Hp. simpl. destruct (temp `mod` p =? 0); [|reflexivity].
  destruct (decide (p ∉ bad_primes_set)); [reflexivity|contradiction].
Qed.

Lemma strip_factor_bad fuel p temp :
  Z.prime p → p ∈ bad_primes_set → 1 ≤ temp → (Z.to_nat temp < fuel)%nat →
  ∃ temp', strip_factor fuel bad_primes_set p temp = Some (temp', true) ∧
           1 ≤ temp' ∧ (temp' | temp) ∧ ¬ (p | temp') ∧
           ∀ r, Z.prime r → (r | temp) → r = p ∨ (r | temp').
Proof.
  intros Hprime Hp. pose proof (Z.prime_ge_2 _ Hprime) as Hp2.
  revert temp. induction fuel as [|fuel IH]; intros temp Htemp Hfuel; [lia|].
  simpl. destruct (Z.eqb_spec (temp `mod` p) 0) as [Hmod|Hmod].
  - destruct (decide (p ∉ bad_primes_set)); [contradiction|].
    apply Z.mod_divide in Hmod as [c Hc]; [|lia].
    assert (temp `div` p = c) as -> by (subst temp; apply Z.div_mul; lia).
    destruct (IH c ltac:(nia) ltac:(nia)) as (t & -> & Ht & Hdiv & Hnd & Hr).
    exists t. split; [reflexivity|]. split; [exact Ht|].
    split; [subst temp; by apply Z.divide_mul_l|]. split; [exact Hnd|].
    intros r Hrp Hrt. subst temp.
    apply (Z.divide_prime_mul _ _ _ Hrp) in Hrt as [Hrc|Hrp'].
    + destruct (Hr r Hrp Hrc); [by left|by right].
    + left. by apply Z.divide_prime_prime.
  - exists temp. split; [reflexivity|]. split; [exact Htemp|].
    split; [apply Z.divide_refl|]. split.
    + intros Hdiv. apply Hmod. apply Z.mod_divide; [lia|exact Hdiv].
    + intros r _ Hr. by right.
Qed.

Lemma trial_factor_spec primes temp :
  StronglySorted Z.lt primes →
  (∀ p, p ∈ primes → Z.prime p ∧ (p ∈ bad_primes_set ↔ p `mod` 47 = 1)) →
  1 ≤ temp →
  (∀ r, Z.prime r → (r | temp) → r ∈ primes) →
  ∃ temp' all_bad,
    trial_factor bad_primes_set primes temp = Some (temp', all_bad) ∧
    1 ≤ temp' ∧ (temp' | temp) ∧
    if all_bad then
      (temp' = 1 ∨ Z.prime temp') ∧
      ∀ r, Z.prime r → (r | temp) → (r | temp') ∨ r `mod` 47 = 1
    else ∃ r, Z.prime r ∧ (r | temp) ∧ r `mod` 47 ≠ 1.
Proof.
  intros Hsorted. revert temp.
  induction Hsorted as [|p primes Hsorted IH Hgt];
    intros temp Hprimes Htemp Hfactors.
  { exists temp, true. split; [reflexivity|]. split; [exact Htemp|].
    split; [apply Z.divide_refl|]. split; [|intros r _ Hr; by left].
    destruct (decide (temp = 1)) as [|Hne]; [by left|exfalso].
    destruct (exists_prime_divisor temp ltac:(lia)) as (r & Hr & Hdiv).
    by apply (elem_of_nil r), Hfactors. }
  rewrite Forall_forall in Hgt.
  destruct (Hprimes p (list_elem_of_here _ _)) as [Hp Hbad].
  pose proof (Z.prime_ge_2 _ Hp) as Hp2.
  assert (∀ q, q ∈ primes →
               Z.prime q ∧ (q ∈ bad_primes_set ↔ q `mod` 47 = 1)) as Hprimes'.
  { intros q Hq. apply Hprimes. by apply list_elem_of_further. }
  cbn [trial_factor]. destruct (Z.gtb_spec (p * p) temp) as [Hsq|Hsq].
  { exists temp, true. split; [reflexivity|]. split; [exact Htemp|].
    split; [apply Z.divide_refl|]. split; [|intros r _ Hr; by left].
    apply (one_or_prime p); [lia|exact Htemp|lia|].
    intros r Hr Hdiv. apply Hfactors in Hdiv; [|exact Hr].
    apply elem_of_cons in Hdiv as [->|Hin]; [lia|].
    apply Hgt in Hin. lia. }
  destruct (decide (p ∈ bad_primes_set)) as [Hin|Hnotin].
  - destruct (strip_factor_bad (S (Z.to_nat temp)) p temp Hp Hin Htemp
                ltac:(lia)) as (t & Hstrip & Ht & Hdiv & Hnd & Hr).
    rewrite Hstrip.
    destruct (IH t Hprimes' Ht) as (temp' & all_bad & -> & Ht' & Hdiv' & Hres).
    { intros r Hrp Hrt.
      assert (r ∈ p :: primes) as Hmem
        by (apply Hfactors; [exact Hrp|by apply Z.divide_trans with t]).
      apply elem_of_cons in Hmem as [->|Hmem]; [contradiction|exact Hmem]. }
    exists temp', all_bad. split; [reflexivity|]. split; [exact Ht'|].
    split; [by apply Z.divide_trans with t|].
    destruct all_bad.
    + destruct Hres as [Hshape Hall]. split; [exact Hshape|].
      intros r Hrp Hrt. destruct (Hr r Hrp Hrt) as [->|Hrt'].
      * right. by apply Hbad.
      * by apply Hall.
    + destruct Hres as (r & Hrp & Hrt & Hrbad).
      exists r. split; [exact Hrp|]. split; [|exact Hrbad].
      by apply Z.divide_trans with t.
  - rewrite (strip_factor_not_bad _ _ _ Hnotin).
    destruct (Z.eqb_spec (temp `mod` p) 0) as [Hmod|Hmod]; simpl.
    + exists temp, false. split; [reflexivity|]. split; [exact Htemp|].
      split; [apply Z.divide_refl|].
      exists p. split; [exact Hp|]. split.
      * apply Z.mod_divide; [lia|exact Hmod].
      * intros H1. by apply Hnotin, Hbad.
    + destruct (IH temp Hprimes' Htemp)
        as (temp' & all_bad & -> & Ht' & Hdiv' & Hres).
      { intros r Hrp Hrt.
        assert (r ∈ p :: primes) as Hmem by (by apply Hfactors).
        apply elem_of_cons in Hmem as [->|Hmem]; [|exact Hmem].
        destruct Hmod. apply Z.mod_divide; [lia|exact Hrt]. }
      exists temp', all_bad. split; [reflexivity|]. split; [exact Ht'|].
      split; [exact Hdiv'|exact Hres].
Qed.

End factoring.

Lemma bad_primes_set_elem primes p :
  p ∈ (list_to_set (filter (λ p, (p - 1) `mod` 47 = 0) primes) : gset Z)
  ↔ p ∈ primes ∧ p `mod` 47 = 1.
Proof.
  rewrite elem_of_list_to_set, list_elem_of_filter, mod_47_pred. tauto.
Qed.

Lemma all_factors_bad_spec q_max primes q :
  sieve_primes q_max = Ok primes → 2 ≤ q ≤ q_max →
  ∃ b, all_factors_bad
         (list_to_set (filter (λ p, (p - 1) `mod` 47 = 0) primes)) primes q
       = Some b ∧ (b = true ↔ bad_modulus q).
Proof.
  intros Hsieve Hq.
  destruct (sieve_primes_spec q_max ltac:(lia)) as (l & Hl & Hsorted & Hmem).
  rewrite Hsieve in Hl. injection Hl as <-. clear Hsieve.
  set (B := list_to_set _ : gset Z).
  assert (∀ p, p ∈ B ↔ p ∈ primes ∧ p `mod` 47 = 1) as HB
    by (intros p; apply bad_primes_set_elem).
  destruct (trial_factor_spec B primes q Hsorted)
    as (temp & all_bad & Hrun & Htemp & Hdiv & Hres).
  { intros p Hp. split; [by apply Hmem|]. rewrite HB. tauto. }
  { lia. }
  { intros r Hr Hrq. apply Hmem. split; [exact Hr|].
    apply Z.divide_pos_le in Hrq; lia. }
  unfold all_factors_bad. rewrite Hrun.
  assert (temp ≤ q) as Hle by (apply Z.divide_pos_le; [lia|exact Hdiv]).
  eexists. split; [reflexivity|].
  destruct all_bad.
  - destruct Hres as [[->|Hprime] Hall].
    + simpl. split; [intros _|reflexivity].
      intros r Hr Hrq. destruct (Hall r Hr Hrq) as [Hr1|Hbad]; [|exact Hbad].
      pose proof (Z.prime_ge_2 _ Hr). apply Z.divide_pos_le in Hr1; lia.
    + pose proof (Z.prime_ge_2 _ Hprime).
      destruct (Z.gtb_spec temp 1); [|lia]. simpl.
      assert (temp ∈ primes) as Hin by (apply Hmem; split; [exact Hprime|lia]).
      destruct (decide (temp ∈ B)) as [HinB|HnotB].
      * rewrite bool_decide_eq_false_2 by (intros Hn; by apply Hn).
        split; [intros _|reflexivity].
        intros r Hr Hrq. destruct (Hall r Hr Hrq) as [Hrt|Hbad]; [|exact Hbad].
        apply (Z.divide_prime_prime _ _ Hr Hprime) in Hrt as ->.
        by apply HB.
      * rewrite bool_decide_eq_true_2 by exact HnotB.
        split; [discriminate|]. intros Hbad. exfalso. apply HnotB, HB.
        split; [exact Hin|]. by apply Hbad.
  - destruct Hres as (r & Hr & Hrq & Hrbad).
    assert ((if (temp >? 1) && bool_decide (temp ∉ B) then false else false)
            = false) as -> by (by destruct (_ && _)).
    split; [discriminate|]. intros Hbad. destruct Hrbad. by apply Hbad.
Qed.

Lemma count_bad_spec B primes qs c :
  (∀ q, q ∈ qs → ∃ b, all_factors_bad B primes q = Some b) →
  count_bad B primes qs c
  = Some (c + Z.of_nat (length (filter
             (λ q, all_factors_bad B primes q = Some true) qs))).
Proof.
  revert c. induction qs as [|q qs IH]; intros c Hqs.
  { simpl. f_equal. lia. }
  cbn [count_bad]. rewrite filter_cons.
  destruct (Hqs q (list_elem_of_here _ _)) as [b Hb]. rewrite Hb.
  rewrite IH by (intros q' Hq'; apply Hqs; by apply list_elem_of_further).
  f_equal. destruct b.
  - rewrite decide_True by reflexivity. simpl length. lia.
  - rewrite decide_False by discriminate. lia.
Qed.

Lemma count_bad_moduli_spec q_max :
  1 ≤ q_max →
  ∃ bads, count_bad_moduli q_max = Ok (Some (Z.of_nat (length bads))) ∧
          StronglySorted Z.lt bads ∧
          ∀ q, q ∈ bads ↔ 2 ≤ q ≤ q_max ∧ bad_modulus q.
Proof.
  intros Hq.
  destruct (sieve_primes_spec q_max Hq) as (primes & Hsieve & _ & _).
  unfold count_bad_moduli. rewrite Hsieve.
  change (Ok ?l ≫= ?f) with (f l). cbv beta zeta.
  set (B := list_to_set _ : gset Z).
  rewrite count_bad_spec.
  2:{ intros q Hin%elem_of_range.
      destruct (all_factors_bad_spec q_max primes q Hsieve ltac:(lia))
        as (b & Hb & _).
      exists b. exact Hb. }
  eexists. split; [rewrite Z.add_0_l; reflexivity|]. split.
  - apply StronglySorted_filter, StronglySorted_seqZ.
  - intros q. rewrite list_elem_of_filter, elem_of_range. split.
    + intros [Hrun Hin]. split; [lia|].
      destruct (all_factors_bad_spec q_max primes q Hsieve ltac:(lia))
        as (b & Hb & Hbad).
      fold B in Hb. rewrite Hrun in Hb. injection Hb as <-. by apply Hbad.
    + intros [Hin Hbad]. split; [|lia].
      destruct (all_factors_bad_spec q_max primes q Hsieve ltac:(lia))
        as (b & Hb & Hiff).
      fold B in Hb. rewrite Hb. f_equal. by apply Hiff.
Qed.

Lemma count_bad_moduli_raise q_max :
  q_max ≤ 0 → count_bad_moduli q_max = Raise IndexError.
Proof.
  intros Hq. unfold count_bad_moduli.
  rewrite sieve_primes_raise by exact Hq. reflexivity.
Qed.

(** X10. [count_bad_moduli] terminates at every bound from 1 on, and its
    [bad_count] is the number of [q] in [2, q_max] all of whose prime
    factors are 1 modulo 47; below 1 it raises the sieve's [IndexError]. *)
Theorem count_bad_moduli_counts_bad_moduli :
  (∀ q_max, 1 ≤ q_max →
     ∃ bads, count_bad_moduli q_max = Ok (Some (Z.of_nat (length bads))) ∧
             StronglySorted Z.lt bads ∧
             ∀ q, q ∈ bads ↔ 2 ≤ q ≤ q_max ∧ bad_modulus q) ∧
  (∀ q_max, q_max ≤ 0 → count_bad_moduli q_max = Raise IndexError).
Proof. split; [exact count_bad_moduli_spec|exact count_bad_moduli_raise]. Qed.

Lemma count_bad_moduli_counts_bad_moduli_witness :
  ∃ bads, count_bad_moduli 1000 = Ok (Some (Z.of_nat (length bads))) ∧
          StronglySorted Z.lt bads ∧
          ∀ q, q ∈ bads ↔ 2 ≤ q ≤ 1000 ∧ bad_modulus q.
Proof. apply (proj1 count_bad_moduli_counts_bad_moduli 1000). lia. Defined.

Lemma no_bad_modulus_below_283 q : 2 ≤ q < 283 → ¬ bad_modulus q.
Proof.
  intros Hq Hbad.
  destruct (exists_prime_divisor q ltac:(lia)) as (r & Hr & Hrq).
  assert (r ≤ q) by (apply Z.divide_pos_le; [lia|exact Hrq]).
  pose proof (omega_theory_below_283 r Hr ltac:(lia)) as Hzero.
  apply (proj1 (proj2 (omega_theory_mod_47 r))) in Hzero.
  apply Hzero. by apply Hbad.
Qed.

(** X11. No modulus below 283 is bad, and 283 is: [count_bad_moduli]
    reports 0 at every bound from 1 to 282 and 1 at the bound 283. *)
Theorem count_bad_moduli_below_283 :
  (∀ q_max, 1 ≤ q_max ≤ 282 → count_bad_moduli q_max = Ok (Some 0)) ∧
  count_bad_moduli 283 = Ok (Some 1).
Proof.
  split.
  - intros q_max Hq.
    destruct (count_bad_moduli_spec q_max ltac:(lia)) as (bads & -> & _ & Hmem).
    destruct bads as [|q bads]; [reflexivity|exfalso].
    destruct (proj1 (Hmem q) (list_elem_of_here _ _)) as [Hrange Hbad].
    apply (no_bad_modulus_below_283 q); [lia|exact Hbad].
  - destruct (count_bad_moduli_spec 283 ltac:(lia)) as (bads & -> & Hs & Hmem).
    assert (283 ∈ bads) as H283.
    { apply Hmem. split; [lia|]. intros r Hr Hdiv.
      apply (Z.divide_prime_prime _ _ Hr prime_283) in Hdiv as ->.
      reflexivity. }
    assert (∀ q, q ∈ bads → q = 283) as Hall.
    { intros q Hin. apply Hmem in Hin as [Hrange Hbad].
      destruct (decide (q = 283)) as [|Hne]; [assumption|exfalso].
      apply (no_bad_modulus_below_283 q); [lia|exact Hbad]. }
    destruct bads as [|a [|b bads]]; [by apply elem_of_nil in H283|done|].
    exfalso. inversion Hs as [|? ? _ Hlt]; subst.
    rewrite Forall_forall in Hlt.
    pose proof (Hall a (list_elem_of_here _ _)).
    pose proof (Hall b ltac:(apply list_elem_of_further, list_elem_of_here)).
    specialize (Hlt b (list_elem_of_here _ _)). lia.
Qed.

Lemma count_bad_moduli_below_283_witness : count_bad_moduli 100 = Ok (Some 0).
Proof. apply (proj1 count_bad_moduli_below_283 100). lia. Defined.

Lemma run_checks_ok check1 check2 check3 check4 check5 ok1 ok3 ok4 bad_count :
  check1 = Ok ok1 → check3 = Ok ok3 → check4 = Ok ok4 →
  check5 = Ok (Some bad_count) →
  run_checks check1 check2 check3 check4 check5
  = Ok (Some (ok1 && check2 && ok3 && ok4)).
Proof. intros -> -> -> ->. reflexivity. Qed.

Lemma verify_local_obstruction_main_run :
  verify_local_obstruction_main = Ok (Some true).
Proof.
  destruct (count_bad_moduli_spec 50000 ltac:(lia)) as (bads & Hcount & _).
  unfold verify_local_obstruction_main.
  rewrite (run_checks_ok _ _ _ _ _ true true true _
             (verify_omega_upto_6299 6299 ltac:(lia))
             (verify_no_small_divisors_true 10000)
             (verify_smallest_bad_prime_run primes_300 sieve_primes_300
                first_bad_prime_300)
             Hcount).
  rewrite (verify_mod47_true 100000). reflexivity.
Qed.

(** X12. [main] of [verify_local_obstruction.py] runs its five checks to
    the end, without an exception and with every loop terminating, and its
    overall verdict [all_ok] is [True]. *)
Theorem verify_local_obstruction_all_pass :
  verify_local_obstruction_main = Ok (Some true) ∧
  verify_omega 6299 = Ok true ∧ verify_mod47 100000 = true ∧
  verify_no_small_divisors 10000 = Ok true ∧
  verify_smallest_bad_prime = Ok true ∧
  ∃ bad_count, count_bad_moduli 50000 = Ok (Some bad_count).
Proof.
  split; [exact verify_local_obstruction_main_run|].
  split; [apply verify_omega_upto_6299; lia|].
  split; [apply verify_mod47_true|].
  split; [apply verify_no_small_divisors_true|].
  split; [exact (verify_smallest_bad_prime_run primes_300 sieve_primes_300
                   first_bad_prime_300)|].
  destruct (count_bad_moduli_spec 50000 ltac:(lia)) as (bads & -> & _).
  eexists. reflexivity.
Qed.

Lemma weight_loop primes W_Q W_generic :
  (∀ p, p ∈ primes → p ≠ 0) →
  for_each primes weight_step (W_Q, W_generic)
  = Ok (fold_left (λ W p, PrimFloat.mul W (W_Q_factor p)) primes W_Q,
        fold_left (λ W p, PrimFloat.mul W (W_generic_factor p)) primes
                  W_generic).
Proof.
  revert W_Q W_generic.
  induction primes as [|p primes IH]; intros W_Q W_generic Hne; [done|].
  cbn [for_each fold_left].
  assert (weight_step p (W_Q, W_generic)
          = Ok (PrimFloat.mul W_Q (W_Q_factor p),
                PrimFloat.mul W_generic (W_generic_factor p))) as ->.
  { unfold weight_step, int_truediv.
    destruct (Z.eqb_spec p 0) as [Hp|_]; [|reflexivity].
    destruct (Hne p (list_elem_of_here _ _) Hp). }
  change (Ok ?l ≫= ?f) with (f l). cbv beta.
  apply IH. intros q Hq. apply Hne. by apply list_elem_of_further.
Qed.

(** X13. [compute_sieve_weight] returns a float at every bound from 1 on:
    its two products are the left folds, over the primes up to [z] in
    ascending order, of multiplication by [1 - omega_Q(p)/p] and by
    [1 - min(46, p - 1)/p], both starting from 1.0, and it returns the
    first. *)
Theorem compute_sieve_weight_is_left_fold :
  ∀ z, 1 ≤ z →
    ∃ primes,
      StronglySorted Z.lt primes ∧
      (∀ p, p ∈ primes ↔ Z.prime p ∧ p ≤ z) ∧
      sieve_weights z
      = Ok (fold_left (λ W p, PrimFloat.mul W (W_Q_factor p)) primes 1%float,
            fold_left (λ W p, PrimFloat.mul W (W_generic_factor p)) primes
                      1%float) ∧
      compute_sieve_weight z
      = Ok (fold_left (λ W p, PrimFloat.mul W (W_Q_factor p)) primes 1%float).
Proof.
  intros z Hz.
  destruct (sieve_primes_spec z Hz) as (primes & Hsieve & Hsorted & Hmem).
  exists primes. split; [exact Hsorted|]. split; [exact Hmem|].
  assert (sieve_weights z
          = Ok (fold_left (λ W p, PrimFloat.mul W (W_Q_factor p)) primes
                          1%float,
                fold_left (λ W p, PrimFloat.mul W (W_generic_factor p))
                          primes 1%float)) as Hrun.
  { unfold sieve_weights. rewrite Hsieve.
    change (Ok ?l ≫= ?f) with (f l). cbv beta.
    apply weight_loop. intros p [Hp _]%Hmem.
    pose proof (Z.prime_ge_2 _ Hp). lia. }
  split; [exact Hrun|]. exact (compute_sieve_weight_run z _ _ Hrun).
Qed.

Lemma compute_sieve_weight_is_left_fold_witness :
  ∃ primes,
    StronglySorted Z.lt primes ∧
    (∀ p, p ∈ primes ↔ Z.prime p ∧ p ≤ 2000) ∧
    sieve_weights 2000
    = Ok (fold_left (λ W p, PrimFloat.mul W (W_Q_factor p)) primes 1%float,
          fold_left (λ W p, PrimFloat.mul W (W_generic_factor p)) primes
                    1%float) ∧
    compute_sieve_weight 2000
    = Ok (fold_left (λ W p, PrimFloat.mul W (W_Q_factor p)) primes 1%float).
Proof. apply (compute_sieve_weight_is_left_fold 2000). lia. Defined.

(** X14. The row label of [compute_CQ] and the row label of [verify_omega]
    agree on every integer; the label is [SPLIT] exactly on
    [p = 1 (mod 47)] and [ramif] exactly at [p = 47]. *)
Theorem ptype_labels_agree :
  ∀ p, ptype_compute_CQ p = ptype_verify_omega p ∧
       (ptype_compute_CQ p = SPLIT ↔ p `mod` 47 = 1) ∧
       (ptype_compute_CQ p = ramif ↔ p = 47).
Proof.
  intros p. rewrite <- mod_47_pred.
  unfold ptype_compute_CQ, ptype_verify_omega, omega_Q.
  destruct (Z.eqb_spec p 47) as [->|Hne].
  { vm_compute. repeat split; intros; congruence. }
  destruct (Z.eqb_spec ((p - 1) `mod` 47) 0) as [Hmod|Hmod]; simpl.
  - split; [reflexivity|]. split; split; intros; congruence.
  - split; [reflexivity|]. split; split; intros; congruence.
Qed.

Lemma split_prime_ge_283 r : Z.prime r → r `mod` 47 = 1 → 283 ≤ r.
Proof.
  intros Hr Hmod. destruct (Z.le_gt_cases 283 r) as [|Hlt]; [assumption|].
  pose proof (omega_theory_below_283 r Hr ltac:(lia)) as Hzero.
  apply (proj1 (proj2 (omega_theory_mod_47 r))) in Hzero. contradiction.
Qed.

Lemma bad_modulus_below_283_squared q :
  2 ≤ q < 283 * 283 → bad_modulus q ↔ Z.prime q ∧ q `mod` 47 = 1.
Proof.
  intros Hq. split.
  - intros Hbad.
    destruct (exists_prime_divisor q ltac:(lia)) as (r & Hr & [c Hc]).
    pose proof (Hbad r Hr ltac:(by exists c)) as Hmod.
    pose proof (split_prime_ge_283 r Hr Hmod) as Hge.
    destruct (decide (c = 1)) as [->|Hc1].
    { replace q with r by lia. split; assumption. }
    exfalso. assert (2 ≤ c < 283) as Hcr by nia.
    destruct (exists_prime_divisor c ltac:(lia)) as (s & Hs & Hsc).
    assert (s ≤ c) by (apply Z.divide_pos_le; [lia|exact Hsc]).
    assert (s `mod` 47 = 1) as Hsmod.
    { apply Hbad; [exact Hs|]. subst q. by apply Z.divide_mul_l. }
    pose proof (split_prime_ge_283 s Hs Hsmod). lia.
  - intros [Hprime Hmod] r Hr Hdiv.
    by apply (Z.divide_prime_prime _ _ Hr Hprime) in Hdiv as ->.
Qed.

(** X15. Below 283 * 283 the bad moduli are the primes that are 1 modulo
    47: for [1 <= q_max < 283 * 283] the loop of [compute_CQ(q_max)] runs
    to its end over the sieved primes, [compute_CQ(q_max)] returns the
    product it holds, its counter [n_split] is the number of sieved primes
    [p] with [p = 1 (mod 47)], and [count_bad_moduli(q_max)] reports that
    same [n_split]. *)
Theorem count_bad_moduli_counts_split_primes :
  ∀ q_max,
    1 ≤ q_max < 283 * 283 →
    ∃ primes C_Q n_shield n_split,
      sieve_primes q_max = Ok primes ∧
      for_each primes CQ_step (1%float, 0, 0) = Ok (C_Q, n_shield, n_split) ∧
      compute_CQ q_max = Ok C_Q ∧
      n_split = Z.of_nat (length (filter (λ p, p `mod` 47 = 1) primes)) ∧
      count_bad_moduli q_max = Ok (Some n_split).
Proof.
  intros q_max Hq.
  destruct (count_bad_moduli_spec q_max ltac:(lia))
    as (bads & Hcount & Hsorted & Hmem).
  destruct (sieve_primes_spec q_max ltac:(lia))
    as (l & Hl & Hsl & Hml).
  destruct (CQ_loop_total l (1%float, 0, 0))
    as (C_Q & n_shield & n_split & Hrun & _).
  { intros p [Hprime _]%Hml. by apply Z.prime_ge_2. }
  exists l, C_Q, n_shield, n_split.
  pose proof (CQ_loop_counts l _ _ _ _ _ _ Hrun) as (Hfold & _ & Hsplit).
  split; [exact Hl|]. split; [exact Hrun|]. split.
  { unfold compute_CQ. rewrite Hl.
    change (Ok ?x ≫= ?f) with (f x). cbv beta.
    rewrite compute_CQ_loop. exact Hfold. }
  split; [lia|].
  rewrite Hcount, Hsplit, Z.add_0_l. do 4 f_equal.
  apply StronglySorted_lt_ext.
  - exact Hsorted.
  - apply StronglySorted_filter. exact Hsl.
  - intros q. rewrite Hmem, list_elem_of_filter, Hml. split.
    + intros [Hrange Hbad].
      apply bad_modulus_below_283_squared in Hbad as [Hp Hmod]; [|lia].
      split; [exact Hmod|]. split; [exact Hp|lia].
    + intros [Hmod [Hp Hle]]. pose proof (Z.prime_ge_2 _ Hp).
      split; [lia|]. apply bad_modulus_below_283_squared; [lia|].
      split; assumption.
Qed.

Lemma count_bad_moduli_counts_split_primes_witness :
  ∃ primes C_Q n_shield n_split,
    sieve_primes 300 = Ok primes ∧
    for_each primes CQ_step (1%float, 0, 0) = Ok (C_Q, n_shield, n_split) ∧
    compute_CQ 300 = Ok C_Q ∧
    n_split = Z.of_nat (length (filter (λ p, p `mod` 47 = 1) primes)) ∧
    count_bad_moduli 300 = Ok (Some n_split).
Proof. apply (count_bad_moduli_counts_split_primes 300). lia. Defined.
